(** * The VK-to-Telegram cross-posting pipeline (bloxa)

    A shallow embedding of [main.py], [telegram_poster.py] and
    [video_downloader.py], with the request parameters of [vk_parser.py]:
    the ledger of processed videos, the per-item pipeline (download,
    publish, record), the publisher's per-destination loops and the
    caption policy, followed by the properties of the specification that
    were checked against them. *)

From Stdlib Require Import ZArith NArith Decimal Ascii String.
From Stdlib Require DecimalN.
From stdpp Require Import base decidable option list gmap sets strings.

Local Open Scope N_scope.

(** ** Python strings

    A Python [str] is a sequence of Unicode code points: [len] counts code
    points and slicing cuts between them. A code point is an [N]. *)

Abbreviation str := (list N).

Module Py.

(** One step of UTF-8 decoding, used only to write the source's literals
    as they appear in the source text. *)
Fixpoint utf8_decode (bs : list N) : str :=
  match bs with
  | [] => []
  | b :: rest =>
      if b <? 128 then b :: utf8_decode rest
      else if b <? 224 then
        match rest with
        | b1 :: r => ((b - 192) * 64 + (b1 - 128)) :: utf8_decode r
        | _ => []
        end
      else if b <? 240 then
        match rest with
        | b1 :: b2 :: r =>
            ((b - 224) * 4096 + (b1 - 128) * 64 + (b2 - 128)) :: utf8_decode r
        | _ => []
        end
      else
        match rest with
        | b1 :: b2 :: b3 :: r =>
            ((b - 240) * 262144 + (b1 - 128) * 4096 + (b2 - 128) * 64 + (b3 - 128))
              :: utf8_decode r
        | _ => []
        end
  end.

(** A literal of the source. *)
Definition lit (s : string) : str :=
  utf8_decode (map Ascii.N_of_ascii (String.list_ascii_of_string s)).

Definition LF : N := 10.
Definition CR : N := 13.
Definition asterisk : N := 42.
Definition star : N := 9733.      (* '★', U+2605 *)
Definition dot : N := 46.

(** [s.replace(old, new)] for one-character [old] and [new]. *)
Definition replace (old new : N) (s : str) : str :=
  map (λ c, if decide (c = old) then new else c) s.

(** [s[:k]]: a negative bound counts from the end, and bounds beyond the
    ends are clipped. *)
Definition slice_to (s : str) (k : Z) : str :=
  if (k <? 0)%Z
  then take (Z.to_nat (Z.max 0 (Z.of_nat (length s) + k))) s
  else take (Z.to_nat k) s.

(** [s[1:]] *)
Definition slice_from_1 (s : str) : str := drop 1 s.

(** The line boundaries of [str.splitlines]: \n \r \v \f \x1c \x1d \x1e
    \x85 U+2028 U+2029 (and \r\n as one boundary). *)
Definition is_linebreak (c : N) : bool :=
  (c =? 10) || (c =? 13) || (c =? 11) || (c =? 12) || (c =? 28) || (c =? 29)
  || (c =? 30) || (c =? 133) || (c =? 8232) || (c =? 8233).

(** [s.splitlines()], with the line being read kept reversed in [cur]. A
    last line with no boundary after it is a line; an empty rest is not. *)
Fixpoint splitlines_from (cur : str) (s : str) : list str :=
  match s with
  | [] => match cur with [] => [] | _ => [rev cur] end
  | c :: r =>
      if is_linebreak c then
        if c =? CR then
          match r with
          | c' :: r' =>
              if c' =? LF then rev cur :: splitlines_from [] r'
              else rev cur :: splitlines_from [] r
          | [] => rev cur :: splitlines_from [] r
          end
        else rev cur :: splitlines_from [] r
      else splitlines_from (c :: cur) r
  end.

Definition splitlines (s : str) : list str := splitlines_from [] s.

(** Reading a text file opened with [newline=None] (as [Path.read_text]
    does): \r\n and a lone \r both arrive as \n. *)
Fixpoint universal_newlines (s : str) : str :=
  match s with
  | [] => []
  | c :: r =>
      if c =? CR then
        match r with
        | c' :: r' =>
            if c' =? LF then LF :: universal_newlines r'
            else LF :: universal_newlines r
        | [] => LF :: universal_newlines r
        end
      else c :: universal_newlines r
  end.

(** Writing to a text file opened with [newline=None]: each \n leaves as
    [os.linesep]. *)
Definition write_newlines (linesep : str) (s : str) : str :=
  mbind (M := list) (λ c, if c =? LF then linesep else [c]) s.

(** A [str] can be encoded as UTF-8 unless it holds a surrogate. *)
Definition encodable (s : str) : bool :=
  forallb (λ c, negb ((55296 <=? c) && (c <=? 57343)) && (c <=? 1114111)) s.

(** [str(n)] for an [int]. *)
Fixpoint digits (d : Decimal.uint) : str :=
  match d with
  | Nil => []
  | D0 d => 48 :: digits d
  | D1 d => 49 :: digits d
  | D2 d => 50 :: digits d
  | D3 d => 51 :: digits d
  | D4 d => 52 :: digits d
  | D5 d => 53 :: digits d
  | D6 d => 54 :: digits d
  | D7 d => 55 :: digits d
  | D8 d => 56 :: digits d
  | D9 d => 57 :: digits d
  end.

Definition str_of_N (n : N) : str := digits (N.to_uint n).

Definition str_of_int (z : Z) : str :=
  match z with
  | Zneg p => 45 :: str_of_N (Npos p)
  | _ => str_of_N (Z.to_N z)
  end.

(** [s.lower()], on the code points that lower-case to an ASCII letter:
    A-Z and U+212A KELVIN SIGN. No other code point lower-cases into the
    letters of a supported format, so the format test below is exact. *)
Definition lower_char (c : N) : N :=
  if (65 <=? c) && (c <=? 90) then c + 32
  else if c =? 8490 then 107
  else c.

Definition lower (s : str) : str := map lower_char s.

(** [s.rfind('.')] as the number of characters before the last dot. *)
Fixpoint rfind_dot (s : str) : option nat :=
  match s with
  | [] => None
  | c :: r =>
      match rfind_dot r with
      | Some i => Some (S i)
      | None => if c =? dot then Some 0%nat else None
      end
  end.

(** [PurePath.suffix] of a file name: from the last dot on, unless that
    dot is the first or the last character. *)
Definition suffix (name : str) : str :=
  match rfind_dot name with
  | Some i =>
      if decide (0 < i ∧ i < length name - 1)%nat then drop i name else []
  | None => []
  end.

End Py.

Import Py.

(** ** Data *)

(** A destination: [Union[str, int]]. *)
Inductive Chat :=
| ChatName (name : str)
| ChatId (id : Z).

(** [types.Message], the receipt of a delivery. *)
Record Message := { message_id : Z }.

(** [datetime], to the minute. *)
Record DateTime := { year : N; month : N; day : N; hour : N; minute : N }.

(** What a [dict] holds under a key that the source does not always fill:
    nothing, [None], or a value. [_enrich_video_data] stores
    [video.get(key)], which is [None] when VK left the field out. *)
Inductive Field (A : Type) :=
| Absent
| PyNone
| Value (a : A).
Arguments Absent {A}.
Arguments PyNone {A}.
Arguments Value {A} a.

(** A candidate item: the [dict] that [search_videos] returns for one video. *)
Module Video.
Record t := {
  owner_id : Z;
  id : Z;
  title : Field str;
  description : Field str;
  url : str;
  views : Field Z;
  date : DateTime;
}.
End Video.

(** The exceptions of the three modules and of their libraries. All of them
    derive from [Exception]. *)
Inductive Exn :=
| DownloadError              (* yt_dlp.utils.DownloadError *)
| VideoDownloadError
| VideoSizeExceededError     (* a VideoDownloadError *)
| TelegramPosterError
| ContentTooLargeError       (* a TelegramPosterError *)
| RetryAfter (timeout : N)   (* aiogram, a TelegramAPIError *)
| ChatNotFound               (* aiogram, a TelegramAPIError *)
| NetworkError               (* aiogram, a TelegramAPIError *)
| TelegramAPIError           (* aiogram, any other API error *)
| VKParserError
| FileNotFoundError
| ValueError
| KeyError
| AttributeError
| OSError
| UnicodeEncodeError
| OtherException.

Definition is_VideoDownloadError (e : Exn) : bool :=
  match e with VideoDownloadError | VideoSizeExceededError => true | _ => false end.

Definition is_TelegramPosterError (e : Exn) : bool :=
  match e with TelegramPosterError | ContentTooLargeError => true | _ => false end.

Definition is_TelegramAPIError (e : Exn) : bool :=
  match e with
  | RetryAfter _ | ChatNotFound | NetworkError | TelegramAPIError => true
  | _ => false
  end.

(** What [bot.send_video] is given as [video]: the open file
    ([_direct_upload]) or the bare file name ([_stream_upload]). *)
Inductive Upload :=
| InputFile (name : str) (size : N)
| FileName (name : str).

(** The calls that leave the process. *)
Inductive Call :=
| VkSearch (count : N)
| YtDlp (url outtmpl format : str)
| SendMessage (chat : Chat) (text : str)
| SendVideo (chat : Chat) (video : Upload) (caption : str)
| Sleep (seconds : N)
| OpenLedger (append : bool).

(** The records written through [logger] at level INFO and above (the
    level [main.py] configures; [logger.debug] writes nothing). *)
Inductive LogRecord :=
| LoadedProcessed (n : nat)
| ErrorLoading (e : Exn)
| ErrorSaving (video_id : str) (e : Exn)
| StartingCycle
| VKProcessingError
| UnexpectedError (e : Exn)
| Processed (video_id : str)
| DownloadFailed (video_id : str)
| PostFailed (video_id : str)
| NotifyFailed (e : Exn)
| CleanupError (e : Exn)
| CleanupWarning (e : Exn)
| MessageSent (chat : Chat) (msg : Message)
| FatalFor (chat : Chat) (e : Exn)
| ApiErrorFor (chat : Chat) (e : Exn)
| VideoSent (chat : Chat) (msg : Message)
| VideoFailed (chat : Chat) (e : Exn)
| LimitExceeded (chat : Chat) (attempt max_retries : nat) (retry_time : N)
| DeleteFailed (path : str) (e : Exn)
| DownloadErrorLogged.

(** [config.py] *)
Record Config := {
  CHANNEL_IDS : list Chat;
  RESULTS_COUNT : N;
  MAX_FILE_SIZE_MB : N;
  DELETE_LOCAL_COPY : bool;
}.

(** ** The environment

    What the outside answers to the n-th call of a run: the search source,
    yt-dlp, the Telegram API, and the file system under the ledger file. *)

Inductive SearchOutcome :=
| Found (videos : list Video.t)
| SearchFails.

Inductive FetchOutcome :=
| Saved (ext : str) (size : N)   (* the media file was written *)
| YdlFails                       (* yt-dlp raises DownloadError *)
| Crashes.                       (* anything else *)

Inductive Reply :=
| Delivered (msg : Message)
| Fails (e : Exn).

Record Env := {
  vk_search : nat → SearchOutcome;
  yt_dlp : nat → str → FetchOutcome;
  telegram : nat → Chat → Reply;
  ledger_fault : nat → bool;     (* opening the ledger file raises OSError *)
  linesep : str;                 (* os.linesep *)
}.

(** ** The state of a run *)

Record World := {
  processed_videos : gset str;       (* ApplicationState.processed_videos *)
  is_running : bool;                 (* ApplicationState.is_running *)
  ledger_file : option str;          (* PROCESSED_VIDEOS_FILE, None while it does not exist *)
  downloads : gmap str N;            (* DOWNLOAD_PATH: file name to size in bytes *)
  item : option str;                 (* the identifier whose pipeline is running *)
  calls : list (option str * Call);  (* the calls made so far, each with [item] at the time *)
  journal : list LogRecord;          (* the log *)
}.

Definition with_processed (s : gset str) (w : World) : World :=
  {| processed_videos := s; is_running := is_running w; ledger_file := ledger_file w;
     downloads := downloads w; item := item w; calls := calls w; journal := journal w |}.

Definition with_running (b : bool) (w : World) : World :=
  {| processed_videos := processed_videos w; is_running := b; ledger_file := ledger_file w;
     downloads := downloads w; item := item w; calls := calls w; journal := journal w |}.

Definition with_ledger_file (f : option str) (w : World) : World :=
  {| processed_videos := processed_videos w; is_running := is_running w; ledger_file := f;
     downloads := downloads w; item := item w; calls := calls w; journal := journal w |}.

Definition with_downloads (d : gmap str N) (w : World) : World :=
  {| processed_videos := processed_videos w; is_running := is_running w;
     ledger_file := ledger_file w; downloads := d; item := item w; calls := calls w;
     journal := journal w |}.

Definition with_item (i : option str) (w : World) : World :=
  {| processed_videos := processed_videos w; is_running := is_running w;
     ledger_file := ledger_file w; downloads := downloads w; item := i; calls := calls w;
     journal := journal w |}.

Definition with_calls (c : list (option str * Call)) (w : World) : World :=
  {| processed_videos := processed_videos w; is_running := is_running w;
     ledger_file := ledger_file w; downloads := downloads w; item := item w; calls := c;
     journal := journal w |}.

Definition with_journal (j : list LogRecord) (w : World) : World :=
  {| processed_videos := processed_videos w; is_running := is_running w;
     ledger_file := ledger_file w; downloads := downloads w; item := item w; calls := calls w;
     journal := j |}.

(** ** Computations: state and exceptions *)

Inductive Res (A : Type) :=
| Ret (a : A)
| Raise (e : Exn).
Arguments Ret {A} a.
Arguments Raise {A} e.

Definition M (A : Type) : Type := World → Res A * World.

Definition ret {A} (a : A) : M A := λ w, (Ret a, w).

Definition raise {A} (e : Exn) : M A := λ w, (Raise e, w).

Definition bind {A B} (c : M A) (k : A → M B) : M B :=
  λ w, match c w with
       | (Ret a, w') => k a w'
       | (Raise e, w') => (Raise e, w')
       end.

Notation "'let!' x ':=' c 'in' k" := (bind c (λ x, k))
  (at level 10, x name, c at level 100, k at level 200).

(** [try: body except ...: handler]: the handler is chosen by the
    exception; [None] lets it pass. *)
Definition try_except {A} (body : M A) (handler : Exn → option (M A)) : M A :=
  λ w, match body w with
       | (Raise e, w') =>
           match handler e with
           | Some h => h w'
           | None => (Raise e, w')
           end
       | r => r
       end.

Definition get : M World := λ w, (Ret w, w).

(** The outcome of a computation that has no effect. *)
Definition result {A} (r : Res A) : M A := λ w, (r, w).

Definition modify (f : World → World) : M unit := λ w, (Ret tt, f w).

(** A call that leaves the process: it is recorded and its number in the
    run is what the environment answers to. *)
Definition call (c : Call) : M nat :=
  λ w, (Ret (length (calls w)), with_calls (calls w ++ [(item w, c)]) w).

Definition logger (r : LogRecord) : M unit :=
  modify (λ w, with_journal (journal w ++ [r]) w).

(** ** The program *)

Section Program.

Variable cfg : Config.
Variable env : Env.

(** *** [ApplicationState] (main.py) *)

(** [path.read_text(encoding='utf-8')] on the ledger file. *)
Definition read_ledger : M str :=
  let! n := call (OpenLedger false) in
  if ledger_fault env n then raise OSError
  else
    let! w := get in
    match ledger_file w with
    | Some content => ret (universal_newlines content)
    | None => raise FileNotFoundError
    end.

(** [with open(PROCESSED_VIDEOS_FILE, 'a', encoding='utf-8') as f: f.write(text)]:
    opening creates the file, and a text that cannot be encoded is refused
    before anything of it is written. *)
Definition append_ledger (text : str) : M unit :=
  let! n := call (OpenLedger true) in
  if ledger_fault env n then raise OSError
  else
    let! w := get in
    let old := default [] (ledger_file w) in
    if encodable text
    then modify (with_ledger_file (Some (old ++ write_newlines (linesep env) text)))
    else let! _ := modify (with_ledger_file (Some old)) in raise UnicodeEncodeError.

(** [ApplicationState.__init__] *)
Definition ApplicationState_init : M unit :=
  modify (λ w, with_running true (with_processed ∅ w)).

Definition load_processed_videos : M unit :=
  try_except
    (let! w := get in
     if bool_decide (is_Some (ledger_file w)) then
       let! content := read_ledger in
       let! _ := modify (with_processed (list_to_set (splitlines content))) in
       let! w' := get in
       logger (LoadedProcessed (size (processed_videos w')))
     else ret tt)
    (λ e, Some (logger (ErrorLoading e))).

Definition save_processed_video (video_id : str) : M unit :=
  try_except
    (let! _ := append_ledger (video_id ++ [LF]) in
     modify (λ w, with_processed (processed_videos w ∪ {[video_id]}) w))
    (λ e, Some (logger (ErrorSaving video_id e))).

(** A process that starts: a new [ApplicationState], then
    [load_processed_videos], as [Application.__init__] and [startup] do. *)
Definition startup_state : M unit :=
  let! _ := ApplicationState_init in load_processed_videos.

(** [save_processed_video] for each identifier of a list, in order. *)
Fixpoint record_all (video_ids : list str) : M unit :=
  match video_ids with
  | [] => ret tt
  | video_id :: rest => let! _ := save_processed_video video_id in record_all rest
  end.

(** *** [AsyncVideoDownloader] (video_downloader.py) *)

Definition _build_format_string (quality : str) (codec : option str) : str :=
  let format_str :=
    lit "bestvideo[height<=" ++ quality ++ lit "]+bestaudio/best[height<=" ++ quality ++ lit "]" in
  match codec with                              (* if codec: *)
  | Some ((_ :: _) as c) => format_str ++ lit "[vcodec~='^" ++ c ++ lit "']"
  | _ => format_str
  end.

(** [_sync_download]: yt-dlp writes [<filename>.<ext>] into the download
    directory and the path of that file is returned. Only the media file
    is followed here, not the thumbnail yt-dlp is asked to write. *)
Definition _sync_download (url filename format : str) : M str :=
  let! n := call (YtDlp url (filename ++ lit ".%(ext)s") format) in
  match yt_dlp env n url with
  | Saved ext size =>
      let final_path := filename ++ [dot] ++ ext in
      let! _ := modify (λ w, with_downloads (<[final_path := size]> (downloads w)) w) in
      ret final_path
  | YdlFails => raise DownloadError
  | Crashes => raise OtherException
  end.

(** [path.stat().st_size] *)
Definition stat_size (path : str) : M N :=
  let! w := get in
  match downloads w !! path with
  | Some size => ret size
  | None => raise FileNotFoundError
  end.

(** [path.exists()] *)
Definition exists_ (path : str) : M bool :=
  let! w := get in ret (bool_decide (is_Some (downloads w !! path))).

(** [path.unlink()] *)
Definition unlink (path : str) : M unit :=
  let! w := get in
  match downloads w !! path with
  | Some _ => modify (λ w, with_downloads (delete path (downloads w)) w)
  | None => raise FileNotFoundError
  end.

(** The two [except] clauses of [download]; [final_path] is the variable
    of that name at the time of the exception. *)
Definition download_except (final_path : option str) (e : Exn) : option (M str) :=
  match e with
  | DownloadError =>
      Some (let! _ := logger DownloadErrorLogged in
            let! _ := match final_path with
                      | Some p => let! there := exists_ p in
                                  if there then unlink p else ret tt
                      | None => ret tt
                      end in
            raise VideoDownloadError)
  | _ => Some (let! _ := logger (UnexpectedError e) in raise VideoDownloadError)
  end.

(** [download]: the [try] block in its two stretches, before and after
    [final_path] is assigned. The progress bar plays no part. *)
Definition download (url filename quality : str) (codec : option str) : M str :=
  let! final_path :=
    try_except (_sync_download url filename (_build_format_string quality codec))
               (download_except None) in
  try_except
    (let! size := stat_size final_path in
     if MAX_FILE_SIZE_MB cfg * 1024 * 1024 <? size
     then raise VideoSizeExceededError
     else ret final_path)
    (download_except (Some final_path)).

(** [for file in files: try: file.unlink() except Exception as e: warning] *)
Fixpoint unlink_each (files : list str) : M unit :=
  match files with
  | [] => ret tt
  | file :: rest =>
      let! _ := try_except (unlink file) (λ e, Some (logger (CleanupWarning e))) in
      unlink_each rest
  end.

(** [cleanup]: every entry of [download_path.glob('*')] is unlinked, each
    under its own [try]. *)
Definition cleanup : M unit :=
  if DELETE_LOCAL_COPY cfg then
    let! w := get in
    unlink_each (elements (dom (downloads w)))
  else ret tt.

(** *** [AsyncTelegramPoster] (telegram_poster.py) *)

Definition MAX_CAPTION_LENGTH : Z := 1024.
Definition CHUNK_SIZE : N := 10 * 1024 * 1024.
Definition SUPPORTED_VIDEO_FORMATS : list str := [lit "mp4"; lit "mov"; lit "mkv"].

Definition _truncate_text (text : str) (max_length : Z) : str :=
  if (max_length <? Z.of_nat (length text))%Z
  then slice_to text (max_length - 3) ++ lit "..."
  else text.

(** [bot.send_message] and [bot.send_video] *)
Definition bot_send (c : Call) (chat : Chat) : M Message :=
  let! n := call c in
  match telegram env n chat with
  | Delivered msg => ret msg
  | Fails e => raise e
  end.

Definition _handle_retry (error_timeout : N) (channel : Chat) (attempt max_retries : nat)
  : M unit :=
  let! _ := logger (LimitExceeded channel (attempt + 1) max_retries error_timeout) in
  let! _ := call (Sleep error_timeout) in
  ret tt.

(** How one pass of [for attempt in range(retries)] ends. *)
Inductive Flow := Break | Continue.

(** [for attempt in range(retries)], from [attempt] on with [remaining]
    passes left; [messages] is the list being appended to. *)
Fixpoint send_text_attempts (message : str) (channel : Chat) (retries : nat)
    (attempt remaining : nat) (messages : list Message) : M (list Message) :=
  match remaining with
  | O => ret messages
  | S remaining' =>
      let! r :=
        try_except
          (let! msg := bot_send (SendMessage channel
                                   (_truncate_text message MAX_CAPTION_LENGTH)) channel in
           let! _ := logger (MessageSent channel msg) in
           ret (Break, messages ++ [msg]))
          (λ e, match e with
                | RetryAfter t =>
                    Some (let! _ := _handle_retry t channel attempt retries in
                          ret (Continue, messages))
                | ChatNotFound | NetworkError =>
                    Some (let! _ := logger (FatalFor channel e) in ret (Break, messages))
                | TelegramAPIError =>
                    Some (let! _ := logger (ApiErrorFor channel e) in ret (Continue, messages))
                | _ => None
                end) in
      match r with
      | (Break, messages') => ret messages'
      | (Continue, messages') =>
          send_text_attempts message channel retries (S attempt) remaining' messages'
      end
  end.

Fixpoint send_text_channels (message : str) (channels : list Chat) (retries : nat)
    (messages : list Message) : M (list Message) :=
  match channels with
  | [] => ret messages
  | channel :: rest =>
      let! messages' := send_text_attempts message channel retries 0 retries messages in
      send_text_channels message rest retries messages'
  end.

Definition send_text (message : str) (channels : list Chat) (retries : nat)
  : M (list Message) :=
  send_text_channels message channels retries [].

Definition _validate_video (path : str) : M unit :=
  let! there := exists_ path in
  if negb there then raise FileNotFoundError
  else if negb (bool_decide (slice_from_1 (lower (suffix path)) ∈ SUPPORTED_VIDEO_FORMATS))
  then raise ValueError
  else
    let! size := stat_size path in
    (* file_size = size / (1024 * 1024); file_size > MAX_FILE_SIZE_MB *)
    if MAX_FILE_SIZE_MB cfg * (1024 * 1024) <? size
    then raise ContentTooLargeError
    else ret tt.

Definition _direct_upload (channel : Chat) (video_path caption : str) : M Message :=
  let! size := stat_size video_path in      (* video_path.open('rb') *)
  bot_send (SendVideo channel (InputFile video_path size)
              (_truncate_text caption MAX_CAPTION_LENGTH)) channel.

Definition _stream_upload (channel : Chat) (video_path caption : str) : M Message :=
  let! _ := stat_size video_path in         (* _file_chunker: path.open('rb') *)
  bot_send (SendVideo channel (FileName video_path)
              (_truncate_text caption MAX_CAPTION_LENGTH)) channel.

Definition _safe_delete (path : str) : M unit :=
  try_except (unlink path) (λ e, Some (logger (DeleteFailed path e))).

Fixpoint send_video_channels (caption video_path : str) (channels : list Chat)
    (stream_upload : bool) (messages : list Message) : M (list Message) :=
  match channels with
  | [] => ret messages
  | channel :: rest =>
      let! messages' :=
        try_except
          (let! streamed :=
             if stream_upload
             then let! size := stat_size video_path in ret (CHUNK_SIZE <? size)
             else ret false in
           let! msg :=
             if streamed then _stream_upload channel video_path caption
             else _direct_upload channel video_path caption in
           let! _ := logger (VideoSent channel msg) in
           let! _ := if DELETE_LOCAL_COPY cfg then _safe_delete video_path else ret tt in
           ret (messages ++ [msg]))
          (λ e, Some (let! _ := logger (VideoFailed channel e) in ret messages)) in
      send_video_channels caption video_path rest stream_upload messages'
  end.

Definition send_video (caption video_path : str) (channels : list Chat)
    (retries : nat) (stream_upload : bool) : M (list Message) :=
  let! _ := _validate_video video_path in
  send_video_channels caption video_path channels stream_upload [].

(** *** [Application] (main.py) *)

Definition pad2 (n : N) : str :=
  if n <? 10 then 48 :: str_of_N n else str_of_N n.

(** [date.strftime('%d.%m.%Y %H:%M')] (for a year of four digits) *)
Definition strftime (d : DateTime) : str :=
  pad2 (day d) ++ lit "." ++ pad2 (month d) ++ lit "." ++ str_of_N (year d)
  ++ lit " " ++ pad2 (hour d) ++ lit ":" ++ pad2 (minute d).

Definition video_id_of (video : Video.t) : str :=
  str_of_int (Video.owner_id video) ++ lit "_" ++ str_of_int (Video.id video).

(** [d.get(key, fallback)]: the value under the key, which may be [None]
    (here Rocq's [None]), or the fallback when the key is absent. *)
Definition dict_get {A} (field : Field A) (fallback : A) : option A :=
  match field with
  | Absent => Some fallback
  | PyNone => None
  | Value a => Some a
  end.

(** [d[key]] *)
Definition dict_item {A} (field : Field A) : Res (option A) :=
  match field with
  | Absent => Raise KeyError
  | PyNone => Ret None
  | Value a => Ret (Some a)
  end.

(** [value.replace(old, new)], which [None] does not have. *)
Definition replace_of (old new : N) (value : option str) : Res str :=
  match value with
  | Some s => Ret (replace old new s)
  | None => Raise AttributeError
  end.

(** [f"{value}"] of a string or [None]. *)
Definition format_text (value : option str) : str :=
  match value with
  | Some s => s
  | None => lit "None"
  end.

(** [f"{value}"] of an integer or [None]. *)
Definition format_int (value : option Z) : str :=
  match value with
  | Some z => str_of_int z
  | None => lit "None"
  end.

Definition _generate_caption (video : Video.t) : Res str :=
  match replace_of asterisk star (dict_get (Video.title video) (lit "Без названия")) with
  | Raise e => Raise e
  | Ret title =>
      match replace_of asterisk star (dict_get (Video.description video) []) with
      | Raise e => Raise e
      | Ret description =>
          let date := strftime (Video.date video) in
          Ret (lit "*" ++ title ++ lit "*" ++ [LF; LF]
               ++ description ++ [LF; LF]
               ++ lit "📅 " ++ date ++ lit " | 👀 "
               ++ format_int (dict_get (Video.views video) 0%Z))
      end
  end.

Definition _handle_download_failure (video : Video.t) : M unit :=
  try_except
    (let! title := result (dict_item (Video.title video)) in      (* video['title'] *)
     let caption := lit "*Не удалось загрузить видео*" ++ [LF] ++ format_text title ++ [LF]
                    ++ Video.url video in
     let! _ := send_text caption (CHANNEL_IDS cfg) 3 in
     ret tt)
    (λ e, Some (logger (NotifyFailed e))).

Definition _handle_posting_failure (video_path : str) : M unit :=
  try_except
    (let! there := exists_ video_path in
     if there then cleanup else ret tt)
    (λ e, Some (logger (CleanupError e))).

(** The two [except] clauses of [_process_single_video]; [downloaded_path]
    is the variable of that name at the time of the exception (reading it
    while it is unbound raises). *)
Definition process_except (video : Video.t) (video_id : str)
    (downloaded_path : option str) (e : Exn) : option (M unit) :=
  if is_VideoDownloadError e then
    Some (let! _ := logger (DownloadFailed video_id) in _handle_download_failure video)
  else if is_TelegramPosterError e then
    Some (let! _ := logger (PostFailed video_id) in
          match downloaded_path with
          | Some p => _handle_posting_failure p
          | None => raise OtherException
          end)
  else None.

(** [_process_single_video]: the [try] block in its two stretches, before
    and after [downloaded_path] is assigned. *)
Definition _process_single_video (video : Video.t) (video_id : str) : M unit :=
  let! downloaded :=
    try_except
      (let! p := download (Video.url video) (lit "video_" ++ video_id) (lit "720p") None in
       ret (Some p))
      (λ e, match process_except video video_id None e with
            | Some h => Some (let! _ := h in ret None)
            | None => None
            end) in
  match downloaded with
  | None => ret tt
  | Some downloaded_path =>
      try_except
        (let! caption := result (_generate_caption video) in
         let! _ := send_video caption downloaded_path (CHANNEL_IDS cfg) 3 true in
         let! _ := save_processed_video video_id in
         logger (Processed video_id))
        (process_except video video_id (Some downloaded_path))
  end.

(** [search_videos], the search source. *)
Definition search_videos (count : N) : M (list Video.t) :=
  let! n := call (VkSearch count) in
  match vk_search env n with
  | Found videos => ret videos
  | SearchFails => raise VKParserError
  end.

(** Runs [c] as the pipeline of [video_id]: the calls it makes are recorded
    under that identifier. *)
Definition as_item {A} (video_id : str) (c : M A) : M A :=
  λ w, let (r, w') := c (with_item (Some video_id) w) in (r, with_item (item w) w').

(** [for video in videos] *)
Fixpoint process_each (videos : list Video.t) : M unit :=
  match videos with
  | [] => ret tt
  | video :: rest =>
      let video_id := video_id_of video in
      let! w := get in
      let! _ := if bool_decide (video_id ∈ processed_videos w)
                then ret tt      (* continue *)
                else as_item video_id (_process_single_video video video_id) in
      process_each rest
  end.

Definition process_videos : M unit :=
  let! w := get in
  if negb (is_running w) then ret tt
  else
    let! _ := logger StartingCycle in
    try_except
      (let! videos := search_videos (RESULTS_COUNT cfg) in
       process_each videos)
      (λ e, match e with
            | VKParserError => Some (logger VKProcessingError)
            | _ => Some (logger (UnexpectedError e))
            end).

End Program.

(** ** More of the program *)

(** *** [_file_chunker] (telegram_poster.py)

    [while chunk := f.read(CHUNK_SIZE): yield chunk] over the bytes of a
    file: [passes] bounds the number of reads, and a file of n bytes needs
    at most n + 1 of them when [chunk_size] is positive. *)
Fixpoint read_chunks (passes chunk_size : nat) (content : list Byte.byte)
  : list (list Byte.byte) :=
  match passes with
  | O => []
  | S passes' =>
      match take chunk_size content with
      | [] => []
      | chunk => chunk :: read_chunks passes' chunk_size (drop chunk_size content)
      end
  end.

Definition _file_chunker (content : list Byte.byte) : list (list Byte.byte) :=
  read_chunks (S (length content)) (N.to_nat CHUNK_SIZE) content.

(** *** [_build_request_params] (vk_parser.py) *)

Definition MAX_RESULTS : Z := 200.

(** [sep.join(parts)] *)
Fixpoint join (sep : str) (parts : list str) : str :=
  match parts with
  | [] => []
  | [part] => part
  | part :: rest => part ++ sep ++ join sep rest
  end.

(** The parameters of the request, key by key. *)
Record RequestParams := {
  param_q : str;
  param_count : Z;
  param_sort : Z;
  param_filters : option str;
  param_extended : Z;
  param_access_token : str;
  param_v : str;
}.

Definition _build_request_params (VK_TOKEN VK_API_VERSION : str)
    (query : str) (count sort : Z) (filters : option (list str)) : RequestParams :=
  let count := Z.max 1 (Z.min count MAX_RESULTS) in
  {| param_q := query;
     param_count := count;
     param_sort := sort;
     param_filters := match filters with             (* if filters *)
                      | Some ((_ :: _) as parts) => Some (join (lit ",") parts)
                      | _ => None
                      end;
     param_extended := 1;
     param_access_token := VK_TOKEN;
     param_v := VK_API_VERSION |}.

(** ** Scenarios

    The values of config.py, an empty start, three candidate items and a
    few outsides to run the program against. *)

Definition MB : N := 1024 * 1024.

Definition channel1 : Chat := ChatName (lit "@your_channel1").
Definition channel2 : Chat := ChatName (lit "@your_channel2").

Definition config_py : Config :=
  {| CHANNEL_IDS := [channel1; channel2];
     RESULTS_COUNT := 5;
     MAX_FILE_SIZE_MB := 50;
     DELETE_LOCAL_COPY := true |}.

Definition fresh : World :=
  {| processed_videos := ∅; is_running := true; ledger_file := None; downloads := ∅;
     item := None; calls := []; journal := [] |}.

Definition video_100_1 : Video.t :=
  {| Video.owner_id := 100; Video.id := 1; Video.title := Value (lit "One");
     Video.description := Value (lit "first"); Video.url := lit "https://vk.com/video100_1";
     Video.views := Value 12%Z;
     Video.date := {| year := 2024; month := 3; day := 5; hour := 9; minute := 30 |} |}.

Definition video_100_2 : Video.t :=
  {| Video.owner_id := 100; Video.id := 2; Video.title := Value (lit "Two * two");
     Video.description := Absent; Video.url := lit "https://vk.com/video100_2";
     Video.views := Absent;
     Video.date := {| year := 2024; month := 3; day := 6; hour := 18; minute := 5 |} |}.

Definition video_100_3 : Video.t :=
  {| Video.owner_id := 100; Video.id := 3; Video.title := Value (lit "Three");
     Video.description := Value (lit "a*b"); Video.url := lit "https://vk.com/video100_3";
     Video.views := Value 7%Z;
     Video.date := {| year := 2024; month := 3; day := 7; hour := 0; minute := 0 |} |}.

(** An item as [_enrich_video_data] stores it when VK left out the title,
    the description and the views. *)
Definition video_100_4 : Video.t :=
  {| Video.owner_id := 100; Video.id := 4; Video.title := PyNone;
     Video.description := PyNone; Video.url := lit "https://vk.com/video100_4";
     Video.views := PyNone;
     Video.date := {| year := 2024; month := 3; day := 8; hour := 12; minute := 0 |} |}.

Definition always_delivers (n : nat) (chat : Chat) : Reply :=
  Delivered {| message_id := Z.of_nat n |}.

Definition never_reachable (n : nat) (chat : Chat) : Reply := Fails ChatNotFound.

(** Rate-limited for the first [k] requests of the run, delivering after. *)
Definition rate_limited_first (k : nat) (seconds : N) (n : nat) (chat : Chat) : Reply :=
  if (n <? k)%nat then Fails (RetryAfter seconds) else Delivered {| message_id := Z.of_nat n |}.

(** An outside that finds [videos], saves each as an mp4 of [size] bytes and
    answers publications with [reply]; [fault] breaks the ledger file. *)
Definition outside (videos : list Video.t) (size : N) (reply : nat → Chat → Reply)
    (fault : bool) : Env :=
  {| vk_search := λ _, Found videos;
     yt_dlp := λ _ _, Saved (lit "mp4") size;
     telegram := reply;
     ledger_fault := λ _, fault;
     linesep := [LF] |}.

(** A publisher that is told to wait at every request. *)
Definition always_rate_limited (seconds : N) (n : nat) (chat : Chat) : Reply :=
  Fails (RetryAfter seconds).

(** A publisher whose every request ends in an error of the API. *)
Definition api_unavailable (n : nat) (chat : Chat) : Reply := Fails TelegramAPIError.

(** A publisher whose second request breaks outside the API (a timeout of
    the request, say) and that delivers otherwise. *)
Definition second_request_breaks (n : nat) (chat : Chat) : Reply :=
  if (n =? 1)%nat then Fails OtherException else Delivered {| message_id := Z.of_nat n |}.

(** A publisher whose requests break outside the API. *)
Definition breaks_down (n : nat) (chat : Chat) : Reply := Fails OtherException.

(** The same with the files saved under the extension [ext]. *)
Definition outside_saving (ext : str) (videos : list Video.t) (size : N) : Env :=
  {| vk_search := λ _, Found videos;
     yt_dlp := λ _ _, Saved ext size;
     telegram := always_delivers;
     ledger_fault := λ _, false;
     linesep := [LF] |}.

(** config.py with the local copies kept. *)
Definition config_keeping : Config :=
  {| CHANNEL_IDS := [channel1; channel2];
     RESULTS_COUNT := 5;
     MAX_FILE_SIZE_MB := 50;
     DELETE_LOCAL_COPY := false |}.

(** A run that starts with [files] in the download directory. *)
Definition with_files (files : list (str * N)) : World :=
  with_downloads (list_to_map files) fresh.

(** ** The vocabulary of the properties *)

(** The calls a computation makes, whatever the state it starts from: all
    of them satisfy [P], they are recorded under the item of the moment,
    and the set of processed videos never loses a member. *)
Definition emits (P : Call → Prop) {A} (c : M A) : Prop :=
  ∀ w, ∃ new,
    calls (c w).2 = calls w ++ map (pair (item w)) new
    ∧ Forall P new
    ∧ item (c w).2 = item w
    ∧ processed_videos w ⊆ processed_videos (c w).2.

(** A text that goes out to a destination is within the caption limit. *)
Definition text_within_limit (c : Call) : Prop :=
  match c with
  | SendMessage _ text | SendVideo _ _ text => (length text ≤ 1024)%nat
  | _ => True
  end.

(** A call that the pipeline of [video_id] may make: its texts are within
    the caption limit and what it downloads goes to the file of that
    identifier. *)
Definition pipeline_call (video_id : str) (c : Call) : Prop :=
  match c with
  | SendMessage _ text | SendVideo _ _ text => (length text ≤ 1024)%nat
  | YtDlp _ outtmpl _ => outtmpl = lit "video_" ++ video_id ++ lit ".%(ext)s"
  | _ => True
  end.

(** A recorded call that belongs to the pipeline of an identifier outside
    [known]. *)
Definition of_unknown_item (known : gset str) (entry : option str * Call) : Prop :=
  ∃ video_id,
    entry.1 = Some video_id ∧ (video_id ∉ known) ∧ pipeline_call video_id entry.2.

(** A call of a sweep: the search, made outside any pipeline, or a call of
    the pipeline of an identifier that was not processed when the sweep
    started. *)
Definition sweep_entry (cfg : Config) (w : World) (entry : option str * Call) : Prop :=
  entry = (item w, VkSearch (RESULTS_COUNT cfg))
  ∨ of_unknown_item (processed_videos w) entry.

(** A string that [str.splitlines] keeps in one piece. *)
Definition no_linebreak (s : str) : Prop := Forall (λ c, is_linebreak c = false) s.

(** The text of a ledger file that holds the lines [video_ids]. *)
Definition ledger_text (sep : str) (video_ids : list str) : str :=
  foldr (λ video_id acc, video_id ++ sep ++ acc) [] video_ids.

(** The receipts the Telegram API hands out for the calls [new], the first
    of which is call number [n] of the run. *)
Fixpoint delivered (env : Env) (n : nat) (new : list Call) : list Message :=
  match new with
  | [] => []
  | c :: rest =>
      match c with
      | SendMessage chat _ | SendVideo chat _ _ =>
          match telegram env n chat with
          | Delivered msg => [msg]
          | Fails _ => []
          end
      | _ => []
      end ++ delivered env (S n) rest
  end.

(** What [send_video] hands to [bot.send_video] for a file of [size] bytes. *)
Definition upload_of (stream_upload : bool) (video_path : str) (size : N) : Upload :=
  if stream_upload && (CHUNK_SIZE <? size) then FileName video_path
  else InputFile video_path size.

(** What a run keeps outside its calls and its log. *)
Definition local_state (w : World)
  : gset str * bool * option str * gmap str N * option str :=
  (processed_videos w, is_running w, ledger_file w, downloads w, item w).

(** The same, the download directory apart. *)
Definition ledger_state (w : World) : gset str * bool * option str * option str :=
  (processed_videos w, is_running w, ledger_file w, item w).

(** The durations slept, in order. *)
Definition sleeps (new : list Call) : list N :=
  omap (λ c, match c with Sleep seconds => Some seconds | _ => None end) new.

(** The destinations asked, one entry per request, in order. *)
Definition asked (new : list Call) : list Chat :=
  omap (λ c, match c with
             | SendMessage chat _ | SendVideo chat _ _ => Some chat
             | _ => None
             end) new.

(** The waits the Telegram API asks for in answer to the requests among
    the calls [new], the first of which is call number [n] of the run. *)
Fixpoint rate_limits (env : Env) (n : nat) (new : list Call) : list N :=
  match new with
  | [] => []
  | c :: rest =>
      match c with
      | SendMessage chat _ | SendVideo chat _ _ =>
          match telegram env n chat with
          | Fails (RetryAfter seconds) => [seconds]
          | _ => []
          end
      | _ => []
      end ++ rate_limits env (S n) rest
  end.

(** The lines that recording [added] appends to the ledger file. *)
Definition ledger_lines (sep : str) (added : list str) : str :=
  foldr (λ video_id acc, write_newlines sep (video_id ++ [LF]) ++ acc) [] added.

(** From [w] to [w'] the identifiers [added] were recorded, in the set and
    in the file alike, and nothing else happened to either. *)
Definition committed (env : Env) (added : list str) (w w' : World) : Prop :=
  processed_videos w' = processed_videos w ∪ list_to_set added
  ∧ default [] (ledger_file w') = default [] (ledger_file w) ++ ledger_lines (linesep env) added.

(** A call of [send_text] on [message]: a request to one of [channels]
    that carries the message cut to the caption limit, or a sleep. *)
Definition text_request (message : str) (channels : list Chat) (c : Call) : Prop :=
  match c with
  | SendMessage chat text =>
      chat ∈ channels ∧ text = _truncate_text message MAX_CAPTION_LENGTH
  | Sleep _ => True
  | _ => False
  end.

(** The destinations of the requests when the i-th of [channels] is asked
    [counts !! i] times, one destination after the other. *)
Definition per_destination (counts : list nat) (channels : list Chat) : list Chat :=
  mjoin (zip_with replicate counts channels).

(** The notice of a failed download, as [_handle_download_failure] builds
    it from the value under ['title']. *)
Definition notice_of (video : Video.t) (title : option str) : str :=
  lit "*Не удалось загрузить видео*" ++ [LF] ++ format_text title ++ [LF] ++ Video.url video.

(** What the pipeline of [video] sends to a destination: the video under
    the generated caption cut to the caption limit, or the notice of a
    failed download cut to the same limit. *)
Definition sends_of (video : Video.t) (c : Call) : Prop :=
  match c with
  | SendVideo _ _ text =>
      ∃ caption, _generate_caption video = Ret caption
                 ∧ text = _truncate_text caption MAX_CAPTION_LENGTH
  | SendMessage _ text =>
      ∃ title, dict_item (Video.title video) = Ret title
               ∧ text = _truncate_text (notice_of video title) MAX_CAPTION_LENGTH
  | _ => True
  end.

(** The characters of [str(n)]: digits and the minus sign. *)
Definition is_int_char (c : N) : Prop := c = 45 ∨ (48 ≤ c ∧ c ≤ 57).

(** ** The model at work *)

Example lit_utf8 : lit "a*★📅" = [97; asterisk; star; 128197].
Proof. reflexivity. Qed.

Example splitlines_lines :
  splitlines (lit "100_1" ++ [LF] ++ lit "100_2" ++ [LF]) = [lit "100_1"; lit "100_2"].
Proof. reflexivity. Qed.

Example splitlines_empty_line : splitlines [97; LF; LF; 98] = [[97]; []; [98]].
Proof. reflexivity. Qed.

Example splitlines_carriage_returns :
  splitlines [97; CR; LF; 98; CR; 99] = [[97]; [98]; [99]].
Proof. reflexivity. Qed.

Example video_id_of_group : video_id_of video_100_3 = lit "100_3".
Proof. reflexivity. Qed.

Example suffix_upper_case : lower (suffix (lit "video_1_2.MP4")) = lit ".mp4".
Proof. reflexivity. Qed.

Example suffix_hidden_file : suffix (lit ".mp4") = [].
Proof. reflexivity. Qed.

Example caption_of_video_100_3 :
  _generate_caption video_100_3
  = Ret (lit "*Three*" ++ [LF; LF] ++ lit "a★b" ++ [LF; LF]
         ++ lit "📅 07.03.2024 00:00 | 👀 7").
Proof. reflexivity. Qed.

Example caption_without_description :
  _generate_caption video_100_2
  = Ret (lit "*Two ★ two*" ++ [LF; LF] ++ [LF; LF] ++ lit "📅 06.03.2024 18:05 | 👀 0").
Proof. reflexivity. Qed.

Example caption_of_none_title : _generate_caption video_100_4 = Raise AttributeError.
Proof. reflexivity. Qed.

Example format_string_empty_codec :
  _build_format_string (lit "720p") (Some []) = _build_format_string (lit "720p") None.
Proof. reflexivity. Qed.

Example format_string_codec :
  _build_format_string (lit "720p") (Some (lit "avc1"))
  = lit "bestvideo[height<=720p]+bestaudio/best[height<=720p][vcodec~='^avc1']".
Proof. reflexivity. Qed.

Example filters_joined :
  param_filters (_build_request_params (lit "token") (lit "5.131") (lit "cats") 5 0
                   (Some [lit "mp4"; lit "hd"]))
  = Some (lit "mp4,hd").
Proof. reflexivity. Qed.

Example filter_alone :
  param_filters (_build_request_params (lit "token") (lit "5.131") (lit "cats") 5 0
                   (Some [lit "long"]))
  = Some (lit "long").
Proof. reflexivity. Qed.

(** A file that is gone when [cleanup] comes to it costs a warning and
    does not stop the loop. *)
Example unlink_each_missing_file :
  let w := with_files [(lit "b.mp4", 1)] in
  let run := unlink_each [lit "a.mp4"; lit "b.mp4"] w in
  run.1 = Ret tt
  ∧ downloads run.2 = ∅
  ∧ journal run.2 = [CleanupWarning FileNotFoundError].
Proof. vm_compute. repeat split. Qed.

(** The scenario of the specification: the search finds 100_1 and 100_2,
    100_1 is processed already, download and publication of 100_2 go well.
    One download, one delivery, both identifiers in the set, and the file
    of 100_2 is gone. *)
Example sweep_of_two_candidates :
  let env := outside [video_100_1; video_100_2] (8 * MB) always_delivers false in
  let run := process_videos config_py env (with_processed {[ lit "100_1" ]} fresh) in
  processed_videos run.2 = {[ lit "100_1"; lit "100_2" ]}
  ∧ ledger_file run.2 = Some (lit "100_2" ++ [LF])
  ∧ downloads run.2 = ∅
  ∧ journal run.2
    = [StartingCycle; VideoSent channel1 {| message_id := 2 |};
       VideoFailed channel2 FileNotFoundError; Processed (lit "100_2")].
Proof. vm_compute. repeat split. Qed.

(** ** Reasoning about computations *)

Section Emits.

Context (P : Call → Prop).

Lemma emits_ret {A} (a : A) : emits P (ret a).
Proof. intros w. exists []. simpl. rewrite app_nil_r. auto. Qed.

Lemma emits_raise {A} (e : Exn) : emits P (raise (A := A) e).
Proof. intros w. exists []. simpl. rewrite app_nil_r. auto. Qed.

Lemma emits_result {A} (r : Res A) : emits P (result r).
Proof. intros w. exists []. simpl. rewrite app_nil_r. auto. Qed.

Lemma emits_get : emits P get.
Proof. intros w. exists []. simpl. rewrite app_nil_r. auto. Qed.

Lemma emits_modify (f : World → World) :
  (∀ w, calls (f w) = calls w ∧ item (f w) = item w
        ∧ processed_videos w ⊆ processed_videos (f w)) →
  emits P (modify f).
Proof.
  intros Hf w. destruct (Hf w) as (Hc & Hi & Hp).
  exists []. simpl. rewrite app_nil_r. auto.
Qed.

Lemma emits_logger (r : LogRecord) : emits P (logger r).
Proof. apply emits_modify. intros w. simpl. auto. Qed.

Lemma emits_call (c : Call) : P c → emits P (call c).
Proof. intros Hc w. exists [c]. simpl. auto. Qed.

Lemma emits_bind {A B} (c : M A) (k : A → M B) :
  emits P c → (∀ a, emits P (k a)) → emits P (bind c k).
Proof.
  intros Hc Hk w. unfold bind.
  destruct (Hc w) as (n1 & E1 & F1 & I1 & S1).
  destruct (c w) as [[a|e] w1]; simpl in *.
  - destruct (Hk a w1) as (n2 & E2 & F2 & I2 & S2).
    exists (n1 ++ n2). rewrite E2, E1, I1, map_app, app_assoc.
    split_and!; [done | by apply Forall_app | congruence | set_solver].
  - exists n1. auto.
Qed.

Lemma emits_try_except {A} (body : M A) (handler : Exn → option (M A)) :
  emits P body → (∀ e h, handler e = Some h → emits P h) →
  emits P (try_except body handler).
Proof.
  intros Hb Hh w. unfold try_except.
  destruct (Hb w) as (n1 & E1 & F1 & I1 & S1).
  destruct (body w) as [[a|e] w1]; simpl in *.
  - exists n1. auto.
  - destruct (handler e) as [h|] eqn:He; simpl.
    + destruct (Hh e h He w1) as (n2 & E2 & F2 & I2 & S2).
      exists (n1 ++ n2). rewrite E2, E1, I1, map_app, app_assoc.
      split_and!; [done | by apply Forall_app | congruence | set_solver].
    + exists n1. auto.
Qed.

End Emits.

(** Splits a goal [emits P c] along the structure of [c]. *)
Ltac emits_step :=
  first
    [ apply emits_ret | apply emits_raise | apply emits_result | apply emits_get
    | apply emits_logger
    | apply emits_bind; [ | intros ? ]
    | apply emits_modify; intros ?; simpl; split_and!; (done || set_solver)
    | match goal with
      | |- emits _ (if ?b then _ else _) => destruct b
      | |- emits _ (match ?x with _ => _ end) => destruct x
      end ].

Ltac emits_handler :=
  let e := fresh "e" in let h := fresh "h" in let H := fresh "H" in
  intros e h H; destruct e; simpl in H; simplify_eq.

(** ** The caption policy *)

Lemma truncate_short (text : str) :
  (length text ≤ 1024)%nat → _truncate_text text MAX_CAPTION_LENGTH = text.
Proof.
  intros H. unfold _truncate_text, MAX_CAPTION_LENGTH.
  destruct (Z.ltb_spec 1024 (Z.of_nat (length text))); [lia | done].
Qed.

Lemma truncate_long (text : str) :
  (1024 < length text)%nat →
  _truncate_text text MAX_CAPTION_LENGTH = take 1021 text ++ lit "...".
Proof.
  intros H. unfold _truncate_text, MAX_CAPTION_LENGTH.
  destruct (Z.ltb_spec 1024 (Z.of_nat (length text))); [done | lia].
Qed.

Lemma truncate_length (text : str) :
  (length (_truncate_text text MAX_CAPTION_LENGTH) ≤ 1024)%nat.
Proof.
  destruct (decide (length text ≤ 1024)%nat) as [H|H].
  - by rewrite truncate_short.
  - rewrite truncate_long by lia.
    rewrite length_app, length_take. change (length (lit "...")) with 3%nat. lia.
Qed.

Lemma replace_no_old (old new : N) (s : str) : old ≠ new → old ∉ replace old new s.
Proof.
  intros Hne Hin. unfold replace in Hin. apply list_elem_of_fmap in Hin as (c & Hc & _).
  case_decide; congruence.
Qed.

Lemma replace_length (old new : N) (s : str) : length (replace old new s) = length s.
Proof. unfold replace. apply length_map. Qed.

Lemma replace_lookup (old new : N) (s : str) (i : nat) (c : N) :
  s !! i = Some c →
  replace old new s !! i = Some (if decide (c = old) then new else c).
Proof. intros H. unfold replace. by rewrite list_lookup_fmap, H. Qed.

(** The calls of each function satisfy any [P] that holds of the texts
    within the caption limit, of the download it is asked for, and of the
    calls that carry neither. *)
Section Frames.

Variable cfg : Config.
Variable env : Env.
Variable P : Call → Prop.

Hypothesis P_message :
  ∀ chat text, (length text ≤ 1024)%nat → P (SendMessage chat text).
Hypothesis P_video :
  ∀ chat video text, (length text ≤ 1024)%nat → P (SendVideo chat video text).
Hypothesis P_other :
  ∀ c, match c with
       | SendMessage _ _ | SendVideo _ _ _ | YtDlp _ _ _ => False
       | _ => True
       end → P c.

Abbreviation sends := (emits P).

Lemma emits_call_plain (c : Call) :
  match c with SendMessage _ _ | SendVideo _ _ _ | YtDlp _ _ _ => False | _ => True end →
  sends (call c).
Proof. intros H. apply emits_call. by apply P_other. Qed.

Lemma read_ledger_sends : sends (read_ledger env).
Proof.
  unfold read_ledger. apply emits_bind; [by apply emits_call_plain | intros n].
  repeat emits_step.
Qed.

Lemma append_ledger_sends text : sends (append_ledger env text).
Proof.
  unfold append_ledger. apply emits_bind; [by apply emits_call_plain | intros n].
  repeat emits_step.
Qed.

Lemma save_processed_video_sends video_id : sends (save_processed_video env video_id).
Proof.
  unfold save_processed_video. apply emits_try_except.
  - apply emits_bind; [apply append_ledger_sends | intros _]. emits_step.
  - emits_handler; apply emits_logger.
Qed.

Lemma stat_size_sends path : sends (stat_size path).
Proof. unfold stat_size. repeat emits_step. Qed.

Lemma exists_sends path : sends (exists_ path).
Proof. unfold exists_. repeat emits_step. Qed.

Lemma unlink_sends path : sends (unlink path).
Proof. unfold unlink. repeat emits_step. Qed.

Lemma _sync_download_sends url filename format :
  P (YtDlp url (filename ++ lit ".%(ext)s") format) →
  sends (_sync_download env url filename format).
Proof.
  intros HP. unfold _sync_download. apply emits_bind; [by apply emits_call | intros n].
  repeat emits_step.
Qed.

Lemma download_except_sends final_path e h :
  download_except final_path e = Some h → sends h.
Proof.
  intros H. destruct e; simpl in H; simplify_eq;
    repeat first [apply exists_sends | apply unlink_sends | emits_step].
Qed.

Lemma download_sends url filename quality codec :
  (∀ format, P (YtDlp url (filename ++ lit ".%(ext)s") format)) →
  sends (download cfg env url filename quality codec).
Proof.
  intros HP. unfold download. apply emits_bind.
  - apply emits_try_except; [by apply _sync_download_sends | apply download_except_sends].
  - intros final_path. apply emits_try_except; [ | apply download_except_sends].
    apply emits_bind; [apply stat_size_sends | intros size]. repeat emits_step.
Qed.

Lemma unlink_each_sends files : sends (unlink_each files).
Proof.
  induction files as [|file rest IH]; simpl; [apply emits_ret | ].
  apply emits_bind; [ | by intros _].
  apply emits_try_except; [apply unlink_sends | ]. emits_handler; apply emits_logger.
Qed.

Lemma cleanup_sends : sends (cleanup cfg).
Proof.
  unfold cleanup. destruct (DELETE_LOCAL_COPY cfg); [ | apply emits_ret].
  apply emits_bind; [apply emits_get | intros w]. apply unlink_each_sends.
Qed.

Lemma bot_send_sends c chat : P c → sends (bot_send env c chat).
Proof.
  intros Hc. unfold bot_send. apply emits_bind; [by apply emits_call | intros n].
  repeat emits_step.
Qed.

Lemma _handle_retry_sends t channel attempt max_retries :
  sends (_handle_retry t channel attempt max_retries).
Proof.
  unfold _handle_retry. apply emits_bind; [apply emits_logger | intros _].
  apply emits_bind; [by apply emits_call_plain | intros n]. apply emits_ret.
Qed.

Lemma send_text_attempts_sends message channel retries attempt remaining messages :
  sends (send_text_attempts env message channel retries attempt remaining messages).
Proof.
  revert attempt messages.
  induction remaining as [|remaining IH]; intros attempt messages; simpl.
  - apply emits_ret.
  - apply emits_bind.
    + apply emits_try_except.
      * apply emits_bind; [ | intros msg; repeat emits_step].
        apply bot_send_sends, P_message, truncate_length.
      * emits_handler; repeat first [apply _handle_retry_sends | emits_step].
    + intros [[] messages']; [apply emits_ret | apply IH].
Qed.

Lemma send_text_sends message channels retries :
  sends (send_text env message channels retries).
Proof.
  unfold send_text. generalize (@nil Message).
  induction channels as [|channel rest IH]; intros messages; simpl.
  - apply emits_ret.
  - apply emits_bind; [apply send_text_attempts_sends | intros messages'; apply IH].
Qed.

Lemma _validate_video_sends path : sends (_validate_video cfg path).
Proof.
  unfold _validate_video. apply emits_bind; [apply exists_sends | intros there].
  destruct (negb there); [apply emits_raise | ].
  destruct (negb _); [apply emits_raise | ].
  apply emits_bind; [apply stat_size_sends | intros size]. repeat emits_step.
Qed.

Lemma _direct_upload_sends channel video_path caption :
  sends (_direct_upload env channel video_path caption).
Proof.
  unfold _direct_upload. apply emits_bind; [apply stat_size_sends | intros size].
  apply bot_send_sends, P_video, truncate_length.
Qed.

Lemma _stream_upload_sends channel video_path caption :
  sends (_stream_upload env channel video_path caption).
Proof.
  unfold _stream_upload. apply emits_bind; [apply stat_size_sends | intros size].
  apply bot_send_sends, P_video, truncate_length.
Qed.

Lemma _safe_delete_sends path : sends (_safe_delete path).
Proof.
  unfold _safe_delete. apply emits_try_except; [apply unlink_sends | ].
  emits_handler; apply emits_logger.
Qed.

Lemma send_video_channels_sends caption video_path channels stream_upload messages :
  sends (send_video_channels cfg env caption video_path channels stream_upload messages).
Proof.
  revert messages. induction channels as [|channel rest IH]; intros messages; simpl.
  - apply emits_ret.
  - apply emits_bind; [ | intros messages'; apply IH].
    apply emits_try_except.
    + apply emits_bind.
      { destruct stream_upload; [ | apply emits_ret].
        apply emits_bind; [apply stat_size_sends | intros size; apply emits_ret]. }
      intros streamed. apply emits_bind.
      { destruct streamed; [apply _stream_upload_sends | apply _direct_upload_sends]. }
      intros msg. apply emits_bind; [apply emits_logger | intros _].
      apply emits_bind; [ | intros _; apply emits_ret].
      destruct (DELETE_LOCAL_COPY cfg); [apply _safe_delete_sends | apply emits_ret].
    + emits_handler; repeat emits_step.
Qed.

Lemma send_video_sends caption video_path channels retries stream_upload :
  sends (send_video cfg env caption video_path channels retries stream_upload).
Proof.
  unfold send_video. apply emits_bind; [apply _validate_video_sends | intros _].
  apply send_video_channels_sends.
Qed.

Lemma _handle_download_failure_sends video : sends (_handle_download_failure cfg env video).
Proof.
  unfold _handle_download_failure. apply emits_try_except.
  - apply emits_bind; [apply emits_result | ].
    intros title. apply emits_bind; [apply send_text_sends | intros _; apply emits_ret].
  - emits_handler; apply emits_logger.
Qed.

Lemma _handle_posting_failure_sends video_path : sends (_handle_posting_failure cfg video_path).
Proof.
  unfold _handle_posting_failure. apply emits_try_except.
  - apply emits_bind; [apply exists_sends | intros there].
    destruct there; [apply cleanup_sends | apply emits_ret].
  - emits_handler; apply emits_logger.
Qed.

Lemma process_except_sends video video_id downloaded_path e h :
  process_except cfg env video video_id downloaded_path e = Some h → sends h.
Proof.
  unfold process_except. intros H.
  destruct (is_VideoDownloadError e); [ | destruct (is_TelegramPosterError e)];
    simplify_eq.
  - apply emits_bind; [apply emits_logger | intros _; apply _handle_download_failure_sends].
  - apply emits_bind; [apply emits_logger | intros _].
    destruct downloaded_path; [apply _handle_posting_failure_sends | apply emits_raise].
Qed.

Lemma _process_single_video_sends video video_id :
  (∀ url format, P (YtDlp url (lit "video_" ++ video_id ++ lit ".%(ext)s") format)) →
  sends (_process_single_video cfg env video video_id).
Proof.
  intros HP. unfold _process_single_video. apply emits_bind.
  - apply emits_try_except.
    + apply emits_bind; [ | intros p; apply emits_ret].
      apply download_sends. intros format. rewrite <- app_assoc. apply HP.
    + intros e h H.
      destruct (process_except cfg env video video_id None e) as [h'|] eqn:E; simplify_eq.
      apply emits_bind; [by eapply process_except_sends | intros _; apply emits_ret].
  - intros [downloaded_path|]; [ | apply emits_ret].
    apply emits_try_except; [ | apply process_except_sends].
    apply emits_bind; [apply emits_result | intros caption].
    apply emits_bind; [apply send_video_sends | intros _].
    apply emits_bind; [apply save_processed_video_sends | intros _; apply emits_logger].
Qed.

End Frames.

Lemma send_text_within_limit env message channels retries :
  emits text_within_limit (send_text env message channels retries).
Proof. apply send_text_sends; solve [done | by intros []]. Qed.

Lemma send_video_within_limit cfg env caption video_path channels retries stream_upload :
  emits text_within_limit
    (send_video cfg env caption video_path channels retries stream_upload).
Proof. apply send_video_sends; solve [done | by intros []]. Qed.

(** ** The sweep *)

Section Sweep.

Variable cfg : Config.
Variable env : Env.

Lemma _process_single_video_calls video video_id :
  emits (pipeline_call video_id) (_process_single_video cfg env video video_id).
Proof. apply _process_single_video_sends; solve [done | by intros []]. Qed.

Lemma as_item_calls video video_id w :
  ∃ new,
    calls (as_item video_id (_process_single_video cfg env video video_id) w).2
    = calls w ++ map (pair (Some video_id)) new
    ∧ Forall (pipeline_call video_id) new
    ∧ item (as_item video_id (_process_single_video cfg env video video_id) w).2 = item w
    ∧ processed_videos w
      ⊆ processed_videos (as_item video_id (_process_single_video cfg env video video_id) w).2.
Proof.
  unfold as_item.
  destruct (_process_single_video_calls video video_id (with_item (Some video_id) w))
    as (new & E & F & I & S).
  destruct (_process_single_video cfg env video video_id (with_item (Some video_id) w))
    as [r w1]; simpl in *.
  exists new. auto.
Qed.

Lemma process_each_skip video rest w :
  video_id_of video ∈ processed_videos w →
  process_each cfg env (video :: rest) w = process_each cfg env rest w.
Proof.
  intros Hin. simpl. unfold bind at 1. simpl.
  rewrite bool_decide_eq_true_2 by done. reflexivity.
Qed.

Lemma process_each_run video rest w :
  video_id_of video ∉ processed_videos w →
  process_each cfg env (video :: rest) w
  = match as_item (video_id_of video)
            (_process_single_video cfg env video (video_id_of video)) w with
    | (Ret _, w1) => process_each cfg env rest w1
    | (Raise e, w1) => (Raise e, w1)
    end.
Proof.
  intros Hout. simpl. unfold bind at 1. simpl.
  rewrite bool_decide_eq_false_2 by done. reflexivity.
Qed.

Lemma Forall_tagged {Q : Call → Prop} {R : option str * Call → Prop} tag (new : list Call) :
  Forall Q new → (∀ c, Q c → R (tag, c)) → Forall R (map (pair tag) new).
Proof.
  intros F H. apply Forall_forall. intros entry (c & -> & Hc)%list_elem_of_fmap.
  apply H. by eapply Forall_forall in F.
Qed.

Lemma process_each_calls videos w :
  ∃ new, calls (process_each cfg env videos w).2 = calls w ++ new
         ∧ Forall (of_unknown_item (processed_videos w)) new
         ∧ item (process_each cfg env videos w).2 = item w
         ∧ processed_videos w ⊆ processed_videos (process_each cfg env videos w).2.
Proof.
  revert w. induction videos as [|video rest IH]; intros w.
  - exists []. simpl. rewrite app_nil_r. auto.
  - destruct (decide (video_id_of video ∈ processed_videos w)) as [Hin|Hout].
    + rewrite process_each_skip by done. apply IH.
    + rewrite process_each_run by done.
      destruct (as_item_calls video (video_id_of video) w) as (n1 & E1 & F1 & I1 & S1).
      assert (U1 : Forall (of_unknown_item (processed_videos w))
                     (map (pair (Some (video_id_of video))) n1)).
      { eapply Forall_tagged; [exact F1 | ]. intros c Hc. by exists (video_id_of video). }
      destruct (as_item _ _ w) as [[[]|e] w1]; simpl in *.
      * destruct (IH w1) as (n2 & E2 & U2 & I2 & S2).
        exists (map (pair (Some (video_id_of video))) n1 ++ n2).
        rewrite E2, E1, app_assoc. split_and!; [done | | congruence | set_solver].
        apply Forall_app. split; [done | ].
        eapply Forall_impl; [exact U2 | ].
        intros entry (id & ? & ? & ?). exists id. set_solver.
      * by exists (map (pair (Some (video_id_of video))) n1).
Qed.

Lemma process_videos_run w :
  is_running w = true →
  process_videos cfg env w
  = let w0 := with_journal (journal w ++ [StartingCycle]) w in
    let w1 := with_calls (calls w ++ [(item w, VkSearch (RESULTS_COUNT cfg))]) w0 in
    match vk_search env (length (calls w)) with
    | Found videos =>
        match process_each cfg env videos w1 with
        | (Ret a, w2) => (Ret a, w2)
        | (Raise VKParserError, w2) => logger VKProcessingError w2
        | (Raise e, w2) => logger (UnexpectedError e) w2
        end
    | SearchFails => logger VKProcessingError w1
    end.
Proof.
  intros Hrun. unfold process_videos, bind at 1. simpl. rewrite Hrun. simpl.
  unfold bind at 1. simpl. unfold try_except, bind at 1, search_videos, bind at 1. simpl.
  destruct (vk_search env (length (calls w))) as [videos|]; simpl; [ | done].
  destruct (process_each cfg env videos _) as [[[]|e] w2]; [done | by destruct e].
Qed.

Lemma process_videos_stopped w :
  is_running w = false → process_videos cfg env w = (Ret tt, w).
Proof. intros Hrun. unfold process_videos, bind at 1. simpl. by rewrite Hrun. Qed.

Lemma process_videos_calls w :
  ∃ new, calls (process_videos cfg env w).2 = calls w ++ new
         ∧ Forall (sweep_entry cfg w) new
         ∧ processed_videos w ⊆ processed_videos (process_videos cfg env w).2.
Proof.
  destruct (is_running w) eqn:Hrun.
  - rewrite process_videos_run by done. cbv zeta.
    set (w1 := with_calls _ _).
    destruct (vk_search env (length (calls w))) as [videos|].
    + destruct (process_each_calls videos w1) as (new & E & U & _ & S).
      exists ((item w, VkSearch (RESULTS_COUNT cfg)) :: new).
      assert (F : Forall (sweep_entry cfg w)
                    ((item w, VkSearch (RESULTS_COUNT cfg)) :: new)).
      { constructor; [by left | ]. eapply Forall_impl; [exact U | ]. intros entry H. by right. }
      destruct (process_each cfg env videos w1) as [[[]|e] w2]; simpl in *.
      * rewrite E, <- app_assoc. done.
      * destruct e; simpl; rewrite E, <- app_assoc; done.
    + exists [(item w, VkSearch (RESULTS_COUNT cfg))]. simpl.
      split_and!; [done | | done]. repeat constructor.
  - rewrite process_videos_stopped by done.
    exists []. simpl. rewrite app_nil_r. split_and!; [done | apply Forall_nil_2 | done].
Qed.

End Sweep.

(** ** The ledger *)

Lemma write_newlines_plain (sep s : str) :
  LF ∉ s → write_newlines sep s = s.
Proof.
  unfold write_newlines. induction s as [|c s IH]; intros H; [done | ].
  apply not_elem_of_cons in H as [Hc Hs]. rewrite bind_cons.
  destruct (N.eqb_spec c LF); [congruence | ]. simpl. by rewrite IH.
Qed.

Lemma no_linebreak_LF (s : str) : no_linebreak s → LF ∉ s.
Proof.
  intros H Hin. eapply Forall_forall in H; [ | exact Hin]. done.
Qed.

Lemma write_newlines_line (sep video_id : str) :
  no_linebreak video_id → write_newlines sep (video_id ++ [LF]) = video_id ++ sep.
Proof.
  intros H. unfold write_newlines. rewrite bind_app.
  fold (write_newlines sep video_id). rewrite write_newlines_plain by by apply no_linebreak_LF.
  rewrite bind_cons. simpl. by rewrite app_nil_r.
Qed.

Lemma universal_newlines_line (sep video_id rest : str) :
  sep = [LF] ∨ sep = [CR; LF] → no_linebreak video_id →
  universal_newlines (video_id ++ sep ++ rest) = video_id ++ LF :: universal_newlines rest.
Proof.
  intros Hsep H. induction H as [|c s Hc Hs IH].
  - destruct Hsep as [-> | ->]; reflexivity.
  - simpl. destruct (N.eqb_spec c CR) as [-> | _]; [done | ]. by rewrite IH.
Qed.

Lemma universal_newlines_ledger_text (sep : str) (video_ids : list str) :
  sep = [LF] ∨ sep = [CR; LF] → Forall no_linebreak video_ids →
  universal_newlines (ledger_text sep video_ids) = ledger_text [LF] video_ids.
Proof.
  intros Hsep H. induction H as [|video_id rest Hid Hrest IH]; [done | ].
  simpl. rewrite universal_newlines_line by done. by rewrite IH.
Qed.

Lemma splitlines_from_line (cur video_id rest : str) :
  no_linebreak video_id →
  splitlines_from cur (video_id ++ LF :: rest)
  = (rev cur ++ video_id) :: splitlines_from [] rest.
Proof.
  intros H. revert cur. induction H as [|c s Hc Hs IH]; intros cur.
  - simpl. by rewrite app_nil_r.
  - simpl. rewrite Hc, IH. simpl. by rewrite <- app_assoc.
Qed.

Lemma splitlines_ledger_text (video_ids : list str) :
  Forall no_linebreak video_ids → splitlines (ledger_text [LF] video_ids) = video_ids.
Proof.
  intros H. unfold splitlines. induction H as [|video_id rest Hid Hrest IH]; [done | ].
  simpl. rewrite splitlines_from_line by done. simpl. by rewrite IH.
Qed.

Lemma encodable_line (video_id : str) :
  encodable video_id = true → encodable (video_id ++ [LF]) = true.
Proof. intros H. unfold encodable in *. by rewrite forallb_app, H. Qed.

(** The hypothesis of the round trip, as a test that computes. *)
Lemma plain_identifiers (video_ids : list str) :
  forallb (λ video_id, forallb (λ c, negb (is_linebreak c)) video_id && encodable video_id)
          video_ids = true →
  Forall (λ video_id, no_linebreak video_id ∧ encodable video_id = true) video_ids.
Proof.
  intros H. apply Forall_forall. intros video_id Hin.
  apply list_elem_of_In in Hin.
  eapply forallb_forall in H; [ | exact Hin].
  apply andb_true_iff in H as [Hlb Henc]. split; [ | done].
  apply Forall_forall. intros c Hc. apply list_elem_of_In in Hc.
  eapply forallb_forall in Hlb; [ | exact Hc]. by apply negb_true_iff.
Qed.

Section Ledger.

Variable env : Env.

Lemma save_processed_video_run video_id w :
  save_processed_video env video_id w
  = let w0 := with_calls (calls w ++ [(item w, OpenLedger true)]) w in
    let old := default [] (ledger_file w) in
    if ledger_fault env (length (calls w)) then logger (ErrorSaving video_id OSError) w0
    else if encodable (video_id ++ [LF]) then
      (Ret tt, with_processed (processed_videos w ∪ {[video_id]})
                 (with_ledger_file
                    (Some (old ++ write_newlines (linesep env) (video_id ++ [LF]))) w0))
    else logger (ErrorSaving video_id UnicodeEncodeError) (with_ledger_file (Some old) w0).
Proof.
  unfold save_processed_video, try_except, bind at 1, append_ledger, bind at 1. simpl.
  destruct (ledger_fault env (length (calls w))); [done | ].
  unfold bind at 1. simpl. destruct (encodable (video_id ++ [LF])); done.
Qed.

Lemma record_all_healthy video_ids w :
  (∀ n, ledger_fault env n = false) →
  Forall (λ video_id, no_linebreak video_id ∧ encodable video_id = true) video_ids →
  (record_all env video_ids w).1 = Ret tt
  ∧ processed_videos (record_all env video_ids w).2
    = processed_videos w ∪ list_to_set video_ids
  ∧ default [] (ledger_file (record_all env video_ids w).2)
    = default [] (ledger_file w) ++ ledger_text (linesep env) video_ids
  ∧ (video_ids ≠ [] → is_Some (ledger_file (record_all env video_ids w).2)).
Proof.
  intros Hio H. revert w. induction H as [|video_id rest [Hlb Henc] Hrest IH]; intros w.
  - simpl. rewrite app_nil_r. split_and!; [done | by rewrite union_empty_r_L | done | done].
  - simpl. unfold bind. rewrite save_processed_video_run. cbv zeta.
    rewrite Hio, encodable_line by done.
    set (w1 := with_processed _ _). destruct (IH w1) as (R & S & L & _).
    split_and!; [done | | | intros _].
    + rewrite S. subst w1. simpl. by rewrite union_assoc_L.
    + rewrite L. subst w1. simpl. by rewrite write_newlines_line, <- !app_assoc.
    + destruct rest as [|video_id' rest']; [by eexists | ].
      destruct (IH w1) as (_ & _ & _ & Hsome). by apply Hsome.
Qed.

Lemma startup_state_reads w content :
  ledger_fault env (length (calls w)) = false →
  ledger_file w = Some content →
  processed_videos (startup_state env w).2
  = list_to_set (splitlines (universal_newlines content)).
Proof.
  intros Hio Hfile. unfold startup_state, bind at 1, load_processed_videos, try_except.
  simpl. unfold bind at 1. simpl. rewrite Hfile. simpl.
  unfold bind at 1, read_ledger, bind at 1. simpl. rewrite Hio.
  unfold bind at 1. simpl. rewrite Hfile. reflexivity.
Qed.

Lemma startup_state_missing w :
  ledger_file w = None → processed_videos (startup_state env w).2 = ∅.
Proof.
  intros Hfile. unfold startup_state, bind at 1, load_processed_videos, try_except.
  simpl. unfold bind at 1. simpl. rewrite Hfile. reflexivity.
Qed.

End Ledger.

(** ** The publisher *)

Section Publisher.

Variable cfg : Config.
Variable env : Env.

Lemma _validate_video_run path w :
  _validate_video cfg path w
  = match downloads w !! path with
    | None => (Raise FileNotFoundError, w)
    | Some size =>
        if negb (bool_decide (slice_from_1 (lower (suffix path)) ∈ SUPPORTED_VIDEO_FORMATS))
        then (Raise ValueError, w)
        else if MAX_FILE_SIZE_MB cfg * (1024 * 1024) <? size
             then (Raise ContentTooLargeError, w)
             else (Ret tt, w)
    end.
Proof.
  unfold _validate_video, exists_, stat_size, bind, get, ret, raise.
  destruct (downloads w !! path) as [size|] eqn:Hfile; simpl; [ | done].
  destruct (negb _); simpl; [done | ]. rewrite Hfile.
  by destruct (_ <? size).
Qed.

Lemma _validate_video_ok path w :
  (_validate_video cfg path w).1 = Ret tt →
  is_Some (downloads w !! path) ∧ _validate_video cfg path w = (Ret tt, w).
Proof.
  rewrite _validate_video_run.
  destruct (downloads w !! path) as [size|]; [ | done].
  destruct (negb _); [done | ]. destruct (_ <? size); [done | ].
  intros _. split; [by eexists | done].
Qed.

(** One pass of the loop of [send_video] while the file is there. *)
Lemma send_video_channels_step caption path channel rest stream_upload messages w size :
  downloads w !! path = Some size →
  send_video_channels cfg env caption path (channel :: rest) stream_upload messages w
  = let c := SendVideo channel (upload_of stream_upload path size)
               (_truncate_text caption MAX_CAPTION_LENGTH) in
    let w1 := with_calls (calls w ++ [(item w, c)]) w in
    match telegram env (length (calls w)) channel with
    | Delivered msg =>
        send_video_channels cfg env caption path rest stream_upload (messages ++ [msg])
          (let w2 := with_journal (journal w ++ [VideoSent channel msg]) w1 in
           if DELETE_LOCAL_COPY cfg
           then with_downloads (delete path (downloads w)) w2 else w2)
    | Fails e =>
        send_video_channels cfg env caption path rest stream_upload messages
          (with_journal (journal w ++ [VideoFailed channel e]) w1)
    end.
Proof.
  intros Hfile. simpl. unfold bind at 1, try_except, bind at 1.
  unfold upload_of.
  destruct stream_upload; simpl.
  - unfold bind at 1, stat_size, bind at 1. simpl. rewrite Hfile. simpl.
    destruct (CHUNK_SIZE <? size); simpl.
    + unfold bind at 1, _stream_upload, bind at 1, stat_size, bind at 1. simpl.
      rewrite Hfile. simpl. unfold bot_send, bind at 1. simpl.
      destruct (telegram env (length (calls w)) channel) as [msg|e]; simpl; [ | done].
      unfold bind at 1. simpl. unfold bind at 1.
      destruct (DELETE_LOCAL_COPY cfg); simpl; [ | done].
      unfold _safe_delete, try_except, unlink, bind at 1. simpl. rewrite Hfile. done.
    + unfold bind at 1, _direct_upload, bind at 1, stat_size, bind at 1. simpl.
      rewrite Hfile. simpl. unfold bot_send, bind at 1. simpl.
      destruct (telegram env (length (calls w)) channel) as [msg|e]; simpl; [ | done].
      unfold bind at 1. simpl. unfold bind at 1.
      destruct (DELETE_LOCAL_COPY cfg); simpl; [ | done].
      unfold _safe_delete, try_except, unlink, bind at 1. simpl. rewrite Hfile. done.
  - unfold bind at 1, _direct_upload, bind at 1, stat_size, bind at 1. simpl.
    rewrite Hfile. simpl. unfold bot_send, bind at 1. simpl.
    destruct (telegram env (length (calls w)) channel) as [msg|e]; simpl; [ | done].
    unfold bind at 1. simpl. unfold bind at 1.
    destruct (DELETE_LOCAL_COPY cfg); simpl; [ | done].
    unfold _safe_delete, try_except, unlink, bind at 1. simpl. rewrite Hfile. done.
Qed.

(** One pass of the loop of [send_video] once the file is gone: the
    destination is not contacted. *)
Lemma send_video_channels_step_gone caption path channel rest stream_upload messages w :
  downloads w !! path = None →
  send_video_channels cfg env caption path (channel :: rest) stream_upload messages w
  = send_video_channels cfg env caption path rest stream_upload messages
      (with_journal (journal w ++ [VideoFailed channel FileNotFoundError]) w).
Proof.
  intros Hfile. simpl. unfold bind at 1, try_except, bind at 1.
  destruct stream_upload; simpl.
  - unfold bind at 1, stat_size, bind at 1. simpl. rewrite Hfile. done.
  - unfold bind at 1, _direct_upload, bind at 1, stat_size, bind at 1. simpl.
    rewrite Hfile. done.
Qed.

Lemma send_video_channels_gone caption path channels stream_upload messages w :
  downloads w !! path = None →
  ∃ w', send_video_channels cfg env caption path channels stream_upload messages w
        = (Ret messages, w')
        ∧ calls w' = calls w ∧ downloads w' = downloads w
        ∧ processed_videos w' = processed_videos w ∧ item w' = item w.
Proof.
  revert w. induction channels as [|channel rest IH]; intros w Hfile.
  - by exists w.
  - rewrite send_video_channels_step_gone by done.
    destruct (IH (with_journal (journal w ++ [VideoFailed channel FileNotFoundError]) w))
      as (w' & E & ?); [done | ].
    by exists w'.
Qed.

Lemma length_snoc {A} (l : list A) (x : A) : length (l ++ [x]) = S (length l).
Proof. rewrite length_app. simpl. lia. Qed.

(** [send_video], past its validation, returns the receipts of the
    deliveries that succeeded, whatever the other destinations did. *)
Lemma send_video_channels_returns caption path channels stream_upload messages w :
  ∃ new,
    (send_video_channels cfg env caption path channels stream_upload messages w).1
    = Ret (messages ++ delivered env (length (calls w)) new)
    ∧ calls (send_video_channels cfg env caption path channels stream_upload messages w).2
      = calls w ++ map (pair (item w)) new.
Proof.
  revert messages w. induction channels as [|channel rest IH]; intros messages w.
  - exists []. simpl. by rewrite !app_nil_r.
  - destruct (downloads w !! path) as [size|] eqn:Hfile.
    + rewrite send_video_channels_step with (size := size) by done. cbv zeta.
      set (c := SendVideo _ _ _).
      destruct (telegram env (length (calls w)) channel) as [msg|e] eqn:Hreply.
      * match goal with
        | |- context [send_video_channels _ _ _ _ _ _ _ ?w2] =>
            destruct (IH (messages ++ [msg]) w2) as (new & R & C);
            assert (calls w2 = calls w ++ [(item w, c)] ∧ item w2 = item w) as [Hc Hi]
              by (by destruct (DELETE_LOCAL_COPY cfg))
        end.
        exists (c :: new). rewrite R, C, Hc, Hi, length_snoc. simpl.
        rewrite Hreply, <- !app_assoc. done.
      * match goal with
        | |- context [send_video_channels _ _ _ _ _ _ _ ?w2] =>
            destruct (IH messages w2) as (new & R & C)
        end.
        exists (c :: new). rewrite R, C. simpl. rewrite length_snoc, Hreply, <- !app_assoc.
        done.
    + rewrite send_video_channels_step_gone by done.
      match goal with
      | |- context [send_video_channels _ _ _ _ _ _ _ ?w2] =>
          destruct (IH messages w2) as (new & R & C)
      end.
      by exists new.
Qed.

(** One pass of [for attempt in range(retries)] in [send_text]. *)
Lemma send_text_attempts_step message channel retries attempt remaining messages w :
  send_text_attempts env message channel retries attempt (S remaining) messages w
  = let c := SendMessage channel (_truncate_text message MAX_CAPTION_LENGTH) in
    let w1 := with_calls (calls w ++ [(item w, c)]) w in
    match telegram env (length (calls w)) channel with
    | Delivered msg =>
        (Ret (messages ++ [msg]), with_journal (journal w ++ [MessageSent channel msg]) w1)
    | Fails (RetryAfter t) =>
        send_text_attempts env message channel retries (S attempt) remaining messages
          (with_calls (calls w1 ++ [(item w, Sleep t)])
             (with_journal (journal w ++ [LimitExceeded channel (attempt + 1) retries t]) w1))
    | Fails ChatNotFound =>
        (Ret messages, with_journal (journal w ++ [FatalFor channel ChatNotFound]) w1)
    | Fails NetworkError =>
        (Ret messages, with_journal (journal w ++ [FatalFor channel NetworkError]) w1)
    | Fails TelegramAPIError =>
        send_text_attempts env message channel retries (S attempt) remaining messages
          (with_journal (journal w ++ [ApiErrorFor channel TelegramAPIError]) w1)
    | Fails e => (Raise e, w1)
    end.
Proof.
  simpl. unfold bind at 1, try_except, bind at 1, bot_send, bind at 1. simpl.
  destruct (telegram env (length (calls w)) channel) as [msg|e]; simpl; [done | ].
  destruct e; try done.
Qed.

Lemma send_text_attempts_returns message channel retries attempt remaining messages w :
  (∀ n chat e, telegram env n chat = Fails e → is_TelegramAPIError e = true) →
  ∃ new,
    (send_text_attempts env message channel retries attempt remaining messages w).1
    = Ret (messages ++ delivered env (length (calls w)) new)
    ∧ calls (send_text_attempts env message channel retries attempt remaining messages w).2
      = calls w ++ map (pair (item w)) new
    ∧ item (send_text_attempts env message channel retries attempt remaining messages w).2
      = item w.
Proof.
  intros Hapi. revert attempt w.
  induction remaining as [|remaining IH]; intros attempt w.
  - exists []. simpl. by rewrite !app_nil_r.
  - rewrite send_text_attempts_step. cbv zeta. set (c := SendMessage _ _).
    destruct (telegram env (length (calls w)) channel) as [msg|e] eqn:Hreply.
    + exists [c]. simpl. rewrite Hreply. simpl. by rewrite ?app_nil_r.
    + pose proof (Hapi _ _ _ Hreply) as He.
      destruct e; try discriminate He.
      * match goal with
        | |- context [send_text_attempts _ _ _ _ _ _ _ ?w2] =>
            destruct (IH (S attempt) w2) as (new & R & C & I)
        end.
        exists (c :: Sleep timeout :: new). rewrite R, C, I. simpl.
        rewrite !length_snoc, Hreply, <- !app_assoc. done.
      * exists [c]. simpl. rewrite Hreply. simpl. by rewrite ?app_nil_r.
      * exists [c]. simpl. rewrite Hreply. simpl. by rewrite ?app_nil_r.
      * match goal with
        | |- context [send_text_attempts _ _ _ _ _ _ _ ?w2] =>
            destruct (IH (S attempt) w2) as (new & R & C & I)
        end.
        exists (c :: new). rewrite R, C, I. simpl.
        rewrite !length_snoc, Hreply, <- !app_assoc. done.
Qed.

Lemma delivered_app n new1 new2 :
  delivered env n (new1 ++ new2)
  = delivered env n new1 ++ delivered env (n + length new1) new2.
Proof.
  revert n. induction new1 as [|c new1 IH]; intros n; simpl.
  - by rewrite Nat.add_0_r.
  - rewrite IH, <- app_assoc, Nat.add_succ_r. done.
Qed.

Lemma send_text_channels_returns message channels retries messages w :
  (∀ n chat e, telegram env n chat = Fails e → is_TelegramAPIError e = true) →
  ∃ new,
    (send_text_channels env message channels retries messages w).1
    = Ret (messages ++ delivered env (length (calls w)) new)
    ∧ calls (send_text_channels env message channels retries messages w).2
      = calls w ++ map (pair (item w)) new.
Proof.
  intros Hapi. revert messages w.
  induction channels as [|channel rest IH]; intros messages w.
  - exists []. simpl. by rewrite !app_nil_r.
  - simpl. unfold bind.
    destruct (send_text_attempts_returns message channel retries 0 retries messages w Hapi)
      as (n1 & R1 & C1 & I1).
    destruct (send_text_attempts env message channel retries 0 retries messages w)
      as [[messages'|e] w1]; simpl in *; [ | done].
    injection R1 as ->.
    destruct (IH (messages ++ delivered env (length (calls w)) n1) w1) as (n2 & R2 & C2).
    exists (n1 ++ n2). rewrite R2, C2, C1, I1, map_app, delivered_app, !length_app, length_map.
    by rewrite <- !app_assoc.
Qed.

End Publisher.

(** ** The download directory *)

Lemma foldr_delete_delete (file : str) (files : list str) (m : gmap str N) :
  foldr (λ file fs, delete file fs) (delete file m) files
  = delete file (foldr (λ file fs, delete file fs) m files).
Proof.
  induction files as [|file' rest IH]; simpl; [done | ].
  by rewrite IH, delete_delete.
Qed.

(** Files that are there are unlinked without a warning. *)
Lemma unlink_each_run (files : list str) (w : World) :
  NoDup files → Forall (λ file, is_Some (downloads w !! file)) files →
  unlink_each files w
  = (Ret tt, with_downloads (foldr (λ file fs, delete file fs) (downloads w) files) w).
Proof.
  revert w. induction files as [|file rest IH]; intros w Hnd Hin.
  - by destruct w.
  - apply NoDup_cons in Hnd as [Hfile Hnd]. apply Forall_cons in Hin as [[size Hsize] Hin].
    cbn [unlink_each]. unfold bind at 1. unfold try_except, unlink, bind, get.
    rewrite Hsize. cbn [modify fst snd].
    rewrite IH; [ | done | ].
    + cbn [downloads with_downloads]. by rewrite foldr_delete_delete.
    + cbn [downloads with_downloads]. rewrite Forall_forall in Hin.
      apply Forall_forall. intros other Hother.
      rewrite lookup_delete_ne; [by apply Hin | ]. by intros ->.
Qed.

Lemma cleanup_run (cfg : Config) (w : World) :
  cleanup cfg w = (Ret tt, if DELETE_LOCAL_COPY cfg then with_downloads ∅ w else w).
Proof.
  unfold cleanup. destruct (DELETE_LOCAL_COPY cfg); [ | done].
  unfold bind, get. rewrite unlink_each_run.
  2: { apply NoDup_elements. }
  2: { apply Forall_forall. intros file Hfile. by apply elem_of_elements, elem_of_dom in Hfile. }
  do 2 f_equal. apply map_eq. intros file. rewrite lookup_empty.
  destruct (downloads w !! file) as [size|] eqn:Hfile.
  - apply lookup_foldr_delete. apply elem_of_elements, elem_of_dom. by eexists.
  - rewrite lookup_foldr_delete_not_elem_of; [done | ].
    rewrite elem_of_elements, elem_of_dom, Hfile. by intros [? ?].
Qed.

Lemma _handle_posting_failure_run (cfg : Config) (video_path : str) (w : World) :
  _handle_posting_failure cfg video_path w
  = (Ret tt, if DELETE_LOCAL_COPY cfg && bool_decide (is_Some (downloads w !! video_path))
             then with_downloads ∅ w else w).
Proof.
  unfold _handle_posting_failure, try_except, bind, exists_, bind, get, ret. simpl.
  destruct (bool_decide _); rewrite ?cleanup_run, ?andb_true_r, ?andb_false_r; done.
Qed.

Section Download.

Variable cfg : Config.
Variable env : Env.

(** [download] in one piece. Past the size limit the error is raised with
    the file left where yt-dlp wrote it. *)
Lemma download_run url filename quality codec w :
  download cfg env url filename quality codec w
  = let c := YtDlp url (filename ++ lit ".%(ext)s") (_build_format_string quality codec) in
    let w0 := with_calls (calls w ++ [(item w, c)]) w in
    match yt_dlp env (length (calls w)) url with
    | Saved ext size =>
        let final_path := filename ++ [dot] ++ ext in
        let w1 := with_downloads (<[final_path := size]> (downloads w)) w0 in
        if MAX_FILE_SIZE_MB cfg * 1024 * 1024 <? size
        then (Raise VideoDownloadError,
              with_journal (journal w ++ [UnexpectedError VideoSizeExceededError]) w1)
        else (Ret final_path, w1)
    | YdlFails =>
        (Raise VideoDownloadError, with_journal (journal w ++ [DownloadErrorLogged]) w0)
    | Crashes =>
        (Raise VideoDownloadError,
         with_journal (journal w ++ [UnexpectedError OtherException]) w0)
    end.
Proof.
  unfold download, _sync_download, stat_size, try_except, bind, call, get, modify. simpl.
  destruct (yt_dlp env (length (calls w)) url) as [ext size| |]; simpl; [ | done | done].
  rewrite lookup_insert_eq. simpl.
  destruct (_ <? size); done.
Qed.

Lemma download_oversize_keeps_file url filename quality codec w ext size :
  yt_dlp env (length (calls w)) url = Saved ext size →
  MAX_FILE_SIZE_MB cfg * 1024 * 1024 < size →
  (download cfg env url filename quality codec w).1 = Raise VideoDownloadError
  ∧ downloads (download cfg env url filename quality codec w).2
      !! (filename ++ [dot] ++ ext) = Some size.
Proof.
  intros Hsaved Hsize. rewrite download_run. cbv zeta. rewrite Hsaved.
  destruct (N.ltb_spec (MAX_FILE_SIZE_MB cfg * 1024 * 1024) size); [ | lia].
  simpl. split; [done | apply lookup_insert_eq].
Qed.

(** A file that [download] returned passes the size test of
    [_validate_video]: once the download has succeeded, [send_video] can
    only raise for the format of the file. *)
Lemma send_video_after_download url filename quality codec w path w1
    caption channels retries stream_upload e :
  download cfg env url filename quality codec w = (Ret path, w1) →
  (send_video cfg env caption path channels retries stream_upload w1).1 = Raise e →
  e = ValueError.
Proof.
  rewrite download_run. cbv zeta.
  destruct (yt_dlp env (length (calls w)) url) as [ext size| |]; [ | done | done].
  destruct (N.ltb_spec (MAX_FILE_SIZE_MB cfg * 1024 * 1024) size) as [ | Hsize]; [done | ].
  intros [= <- <-]. unfold send_video, bind. rewrite _validate_video_run. simpl.
  rewrite lookup_insert_eq.
  destruct (negb _); simpl; [congruence | ].
  destruct (N.ltb_spec (MAX_FILE_SIZE_MB cfg * (1024 * 1024)) size); [lia | ].
  match goal with
  | |- context [send_video_channels ?a ?b ?c ?d ?e ?f ?g ?h] =>
      destruct (send_video_channels_returns a b c d e f g h) as (new & R & _)
  end.
  rewrite R. done.
Qed.

End Download.

Section FirstSuccess.

Variable cfg : Config.
Variable env : Env.

Lemma send_video_channels_first_success caption path pre channel post stream_upload
    messages w size msg :
  DELETE_LOCAL_COPY cfg = true →
  downloads w !! path = Some size →
  (∀ k ch, pre !! k = Some ch → ∃ e, telegram env (length (calls w) + k) ch = Fails e) →
  telegram env (length (calls w) + length pre) channel = Delivered msg →
  ∃ w',
    send_video_channels cfg env caption path (pre ++ channel :: post) stream_upload messages w
    = (Ret (messages ++ [msg]), w')
    ∧ downloads w' = delete path (downloads w)
    ∧ calls w'
      = calls w ++ map (λ ch, (item w, SendVideo ch (upload_of stream_upload path size)
                                         (_truncate_text caption MAX_CAPTION_LENGTH)))
                     (pre ++ [channel]).
Proof.
  intros Hdel. revert w. induction pre as [|ch pre IH]; intros w Hfile Hfail Hok.
  - simpl in Hok. rewrite Nat.add_0_r in Hok. rewrite app_nil_l.
    rewrite send_video_channels_step with (size := size) by done. cbv zeta.
    rewrite Hok, Hdel.
    match goal with
    | |- context [send_video_channels _ _ _ _ _ _ _ ?w2] =>
        destruct (send_video_channels_gone cfg env caption path post stream_upload
                    (messages ++ [msg]) w2) as (w' & E & C & D & _)
    end.
    { simpl. apply lookup_delete_eq. }
    exists w'. rewrite E, C, D. done.
  - rewrite <- app_comm_cons.
    rewrite send_video_channels_step with (size := size) by done. cbv zeta.
    destruct (Hfail 0%nat ch eq_refl) as [e He]. rewrite Nat.add_0_r in He. rewrite He.
    match goal with
    | |- context [send_video_channels _ _ _ _ _ _ _ ?w2] =>
        destruct (IH w2) as (w' & E & D & C)
    end.
    + done.
    + intros k ch' Hk. simpl. rewrite length_snoc.
      destruct (Hfail (S k) ch' Hk) as [e' He']. exists e'.
      by replace (S (length (calls w)) + k)%nat with (length (calls w) + S k)%nat by lia.
    + simpl. rewrite length_snoc.
      by replace (S (length (calls w)) + length pre)%nat
        with (length (calls w) + S (length pre))%nat by lia.
    + exists w'. rewrite E, D, C. simpl. by rewrite <- app_assoc.
Qed.

End FirstSuccess.

(** ** The pipeline of one item *)

Section Pipeline.

Variable cfg : Config.
Variable env : Env.

Lemma save_processed_video_returns video_id w :
  (save_processed_video env video_id w).1 = Ret tt.
Proof.
  rewrite save_processed_video_run. cbv zeta.
  destruct (ledger_fault env (length (calls w))); [done | ].
  by destruct (encodable (video_id ++ [LF])).
Qed.

Lemma _handle_download_failure_returns video w :
  (_handle_download_failure cfg env video w).1 = Ret tt.
Proof.
  unfold _handle_download_failure, try_except.
  match goal with |- context [match ?b w with _ => _ end] => destruct (b w) as [[[]|e] w'] end;
    done.
Qed.

Lemma download_raises url filename quality codec w e :
  (download cfg env url filename quality codec w).1 = Raise e → e = VideoDownloadError.
Proof.
  rewrite download_run. cbv zeta.
  destruct (yt_dlp env (length (calls w)) url) as [ext size| |]; simpl; [ | congruence..].
  destruct (_ <? size); simpl; congruence.
Qed.

(** [_generate_caption] raises nothing but the [AttributeError] of a
    title or a description that is [None]. *)
Lemma _generate_caption_raises video e :
  _generate_caption video = Raise e →
  e = AttributeError ∧ (Video.title video = PyNone ∨ Video.description video = PyNone).
Proof.
  unfold _generate_caption.
  destruct (Video.title video); simpl; [ | intros [= <-]; auto | ];
    (destruct (Video.description video); simpl; [done | intros [= <-]; auto | done]).
Qed.

Lemma _generate_caption_returns video :
  Video.title video ≠ PyNone → Video.description video ≠ PyNone →
  ∃ caption, _generate_caption video = Ret caption.
Proof.
  intros Ht Hd. unfold _generate_caption.
  destruct (Video.title video); [ | done | ];
    (destruct (Video.description video); [ | done | ]); by eexists.
Qed.

(** [_process_single_video] in one piece: the download fails and the notice
    goes out, or the caption or the publication raises and the exception
    escapes, or the identifier is handed to [save_processed_video]. *)
Lemma _process_single_video_run video video_id w :
  _process_single_video cfg env video video_id w
  = match download cfg env (Video.url video) (lit "video_" ++ video_id) (lit "720p") None w with
    | (Raise _, w1) =>
        _handle_download_failure cfg env video
          (with_journal (journal w1 ++ [DownloadFailed video_id]) w1)
    | (Ret downloaded_path, w1) =>
        match _generate_caption video with
        | Raise e => (Raise e, w1)
        | Ret caption =>
            match send_video cfg env caption downloaded_path (CHANNEL_IDS cfg) 3 true w1 with
            | (Raise e, w2) => (Raise e, w2)
            | (Ret _, w2) =>
                logger (Processed video_id) (save_processed_video env video_id w2).2
            end
        end
    end.
Proof.
  unfold _process_single_video. unfold bind at 1. unfold try_except at 1. unfold bind at 1.
  destruct (download cfg env (Video.url video) (lit "video_" ++ video_id) (lit "720p") None w)
    as [[path|e] w1] eqn:Hd.
  - simpl. unfold try_except, bind, result.
    destruct (_generate_caption video) as [caption|e] eqn:Hc.
    2: { apply _generate_caption_raises in Hc as [-> _]. done. }
    destruct (send_video cfg env caption path (CHANNEL_IDS cfg) 3 true w1)
      as [[msgs|e] w2] eqn:Hs.
    + pose proof (save_processed_video_returns video_id w2) as Hsave.
      destruct (save_processed_video env video_id w2) as [[[]|e] w3]; simpl in *; done.
    + assert (e = ValueError) as ->.
      { eapply send_video_after_download; [exact Hd | ]. by rewrite Hs. }
      done.
  - assert (e = VideoDownloadError) as -> by (eapply download_raises; by rewrite Hd).
    simpl. unfold bind, logger, modify.
    pose proof (_handle_download_failure_returns video
                  (with_journal (journal w1 ++ [DownloadFailed video_id]) w1)) as Hh.
    destruct (_handle_download_failure cfg env video _) as [[[]|e] w2]; simpl in *; done.
Qed.

End Pipeline.

(** ** The publisher, request by request *)

Section Requests.

Variable env : Env.

Lemma rate_limits_app n new1 new2 :
  rate_limits env n (new1 ++ new2)
  = rate_limits env n new1 ++ rate_limits env (n + length new1) new2.
Proof.
  revert n. induction new1 as [|c new1 IH]; intros n; simpl.
  - by rewrite Nat.add_0_r.
  - rewrite IH, <- app_assoc, Nat.add_succ_r. done.
Qed.

(** What the requests of [send_text] to one destination look like, whatever
    the Telegram API answers. *)
Lemma send_text_attempts_trace message channel retries attempt remaining messages w :
  ∃ new,
    calls (send_text_attempts env message channel retries attempt remaining messages w).2
    = calls w ++ map (pair (item w)) new
    ∧ local_state (send_text_attempts env message channel retries attempt remaining
                     messages w).2 = local_state w
    ∧ sleeps new = rate_limits env (length (calls w)) new
    ∧ (length (asked new) ≤ remaining)%nat
    ∧ Forall (λ chat, chat = channel) (asked new).
Proof.
  revert attempt w. induction remaining as [|remaining IH]; intros attempt w.
  - exists []. simpl. rewrite app_nil_r. split_and!; [done | done | done | lia | done].
  - rewrite send_text_attempts_step. cbv zeta. set (c := SendMessage _ _).
    destruct (telegram env (length (calls w)) channel) as [msg|e] eqn:Hreply.
    + exists [c]. simpl. rewrite Hreply. simpl.
      split_and!; [done | done | done | lia | by repeat constructor].
    + destruct e;
        try (exists [c]; simpl; rewrite Hreply; simpl;
             split_and!; [done | done | done | lia | by repeat constructor]).
      * match goal with
        | |- context [send_text_attempts _ _ _ _ _ _ _ ?w2] =>
            destruct (IH (S attempt) w2) as (new & C & L & Hs & B & A)
        end.
        simpl in Hs. rewrite !length_snoc in Hs.
        exists (c :: Sleep timeout :: new). rewrite C, L. simpl.
        rewrite Hreply, <- !app_assoc. simpl. fold (sleeps new). rewrite Hs.
        split_and!; [done | done | done | lia | by constructor].
      * match goal with
        | |- context [send_text_attempts _ _ _ _ _ _ _ ?w2] =>
            destruct (IH (S attempt) w2) as (new & C & L & Hs & B & A)
        end.
        simpl in Hs. rewrite !length_snoc in Hs.
        exists (c :: new). rewrite C, L. simpl.
        rewrite Hreply, <- !app_assoc. simpl. fold (sleeps new). rewrite Hs.
        split_and!; [done | done | done | lia | by constructor].
Qed.

Lemma sleeps_app new1 new2 : sleeps (new1 ++ new2) = sleeps new1 ++ sleeps new2.
Proof. unfold sleeps. apply omap_app. Qed.

Lemma asked_app new1 new2 : asked (new1 ++ new2) = asked new1 ++ asked new2.
Proof. unfold asked. apply omap_app. Qed.

Lemma send_text_channels_trace message channels retries messages w :
  ∃ new,
    calls (send_text_channels env message channels retries messages w).2
    = calls w ++ map (pair (item w)) new
    ∧ local_state (send_text_channels env message channels retries messages w).2
      = local_state w
    ∧ sleeps new = rate_limits env (length (calls w)) new
    ∧ (length (asked new) ≤ retries * length channels)%nat
    ∧ asked new ⊆ channels.
Proof.
  revert messages w. induction channels as [|channel rest IH]; intros messages w.
  - exists []. simpl. rewrite app_nil_r. split_and!; [done | done | done | lia | done].
  - simpl. unfold bind.
    destruct (send_text_attempts_trace message channel retries 0 retries messages w)
      as (n1 & C1 & L1 & Hs1 & B1 & A1).
    destruct (send_text_attempts env message channel retries 0 retries messages w)
      as [[messages'|e] w1]; simpl in *.
    + destruct (IH messages' w1) as (n2 & C2 & L2 & Hs2 & B2 & A2).
      assert (Hitem : item w1 = item w) by (by injection L1).
      exists (n1 ++ n2).
      rewrite C2, C1, L2, L1, Hitem, map_app, sleeps_app, rate_limits_app, asked_app.
      rewrite length_app, <- app_assoc, Hs1.
      rewrite C1, length_app, length_map in Hs2. rewrite Hs2.
      split_and!; [done | done | done | lia | ].
      intros chat [Hin | Hin]%elem_of_app.
      * eapply Forall_forall in A1; [ | exact Hin]. subst chat. apply list_elem_of_here.
      * apply list_elem_of_further. by apply A2.
    + exists n1. split_and!; [done | done | done | lia | ].
      intros chat Hin. eapply Forall_forall in A1; [ | exact Hin]. subst chat.
      apply list_elem_of_here.
Qed.

End Requests.

Section RetryPolicy.

Variable env : Env.

Lemma send_text_channels_cons message channel rest retries messages w :
  send_text_channels env message (channel :: rest) retries messages w
  = match send_text_attempts env message channel retries 0 retries messages w with
    | (Ret messages', w1) => send_text_channels env message rest retries messages' w1
    | (Raise e, w1) => (Raise e, w1)
    end.
Proof. reflexivity. Qed.

Lemma send_text_attempts_fatal message channel retries attempt remaining messages w :
  telegram env (length (calls w)) channel = Fails ChatNotFound
  ∨ telegram env (length (calls w)) channel = Fails NetworkError →
  ∃ w', send_text_attempts env message channel retries attempt (S remaining) messages w
        = (Ret messages, w')
        ∧ calls w'
          = calls w ++ [(item w, SendMessage channel (_truncate_text message MAX_CAPTION_LENGTH))]
        ∧ item w' = item w.
Proof.
  intros Hreply. rewrite send_text_attempts_step. cbv zeta.
  destruct Hreply as [-> | ->]; by eexists.
Qed.

Lemma send_text_channels_fatal message channels remaining messages w :
  (∀ n chat, telegram env n chat = Fails ChatNotFound
             ∨ telegram env n chat = Fails NetworkError) →
  ∃ w', send_text_channels env message channels (S remaining) messages w = (Ret messages, w')
        ∧ calls w'
          = calls w
            ++ map (λ ch, (item w, SendMessage ch (_truncate_text message MAX_CAPTION_LENGTH)))
                 channels
        ∧ item w' = item w.
Proof.
  intros Hfatal. revert w. induction channels as [|channel rest IH]; intros w.
  - exists w. simpl. by rewrite app_nil_r.
  - rewrite send_text_channels_cons.
    destruct (send_text_attempts_fatal message channel (S remaining) 0 remaining messages w
                (Hfatal _ _)) as (w1 & -> & C1 & I1).
    destruct (IH w1) as (w2 & -> & C2 & I2).
    exists w2. rewrite C2, C1, I2, I1, <- app_assoc. done.
Qed.

Lemma send_text_attempts_rate_limited seconds message channel retries attempt remaining
    messages w :
  (∀ n chat, telegram env n chat = Fails (RetryAfter seconds)) →
  ∃ w', send_text_attempts env message channel retries attempt remaining messages w
        = (Ret messages, w')
        ∧ calls w'
          = calls w
            ++ mjoin (replicate remaining
                        [(item w, SendMessage channel
                                    (_truncate_text message MAX_CAPTION_LENGTH));
                         (item w, Sleep seconds)])
        ∧ item w' = item w.
Proof.
  intros Hlimit. revert attempt w. induction remaining as [|remaining IH]; intros attempt w.
  - exists w. simpl. by rewrite app_nil_r.
  - rewrite send_text_attempts_step. cbv zeta. rewrite Hlimit.
    match goal with
    | |- context [send_text_attempts _ _ _ _ _ _ _ ?w2] =>
        destruct (IH (S attempt) w2) as (w' & -> & C & I)
    end.
    exists w'. rewrite C, I. simpl. by rewrite <- !app_assoc.
Qed.

Lemma send_text_channels_rate_limited seconds message channels retries messages w :
  (∀ n chat, telegram env n chat = Fails (RetryAfter seconds)) →
  ∃ w', send_text_channels env message channels retries messages w = (Ret messages, w')
        ∧ calls w'
          = calls w
            ++ mjoin (map (λ ch,
                  mjoin (replicate retries
                           [(item w, SendMessage ch
                                       (_truncate_text message MAX_CAPTION_LENGTH));
                            (item w, Sleep seconds)])) channels)
        ∧ item w' = item w.
Proof.
  intros Hlimit. revert w. induction channels as [|channel rest IH]; intros w.
  - exists w. simpl. by rewrite app_nil_r.
  - rewrite send_text_channels_cons.
    destruct (send_text_attempts_rate_limited seconds message channel retries 0 retries
                messages w Hlimit) as (w1 & -> & C1 & I1).
    destruct (IH w1) as (w2 & -> & C2 & I2).
    exists w2. rewrite C2, C1, I2, I1, <- app_assoc. done.
Qed.

Lemma send_text_attempts_api_error message channel retries attempt remaining messages w :
  (∀ n chat, telegram env n chat = Fails TelegramAPIError) →
  ∃ w', send_text_attempts env message channel retries attempt remaining messages w
        = (Ret messages, w')
        ∧ calls w'
          = calls w
            ++ replicate remaining
                 (item w, SendMessage channel (_truncate_text message MAX_CAPTION_LENGTH))
        ∧ item w' = item w.
Proof.
  intros Herr. revert attempt w. induction remaining as [|remaining IH]; intros attempt w.
  - exists w. simpl. by rewrite app_nil_r.
  - rewrite send_text_attempts_step. cbv zeta. rewrite Herr.
    match goal with
    | |- context [send_text_attempts _ _ _ _ _ _ _ ?w2] =>
        destruct (IH (S attempt) w2) as (w' & -> & C & I)
    end.
    exists w'. rewrite C, I. simpl. by rewrite <- !app_assoc.
Qed.

Lemma send_text_channels_api_error message channels retries messages w :
  (∀ n chat, telegram env n chat = Fails TelegramAPIError) →
  ∃ w', send_text_channels env message channels retries messages w = (Ret messages, w')
        ∧ calls w'
          = calls w
            ++ mjoin (map (λ ch,
                  replicate retries
                    (item w, SendMessage ch (_truncate_text message MAX_CAPTION_LENGTH)))
                 channels)
        ∧ item w' = item w.
Proof.
  intros Herr. revert w. induction channels as [|channel rest IH]; intros w.
  - exists w. simpl. by rewrite app_nil_r.
  - rewrite send_text_channels_cons.
    destruct (send_text_attempts_api_error message channel retries 0 retries messages w Herr)
      as (w1 & -> & C1 & I1).
    destruct (IH w1) as (w2 & -> & C2 & I2).
    exists w2. rewrite C2, C1, I2, I1, <- app_assoc. done.
Qed.

End RetryPolicy.

Section VideoRequests.

Variable cfg : Config.
Variable env : Env.

(** The loop of [send_video] leaves the ledger alone and, of the download
    directory, removes the file it sends or nothing. *)
Lemma send_video_channels_frame caption path channels stream_upload messages w :
  ledger_state (send_video_channels cfg env caption path channels stream_upload messages w).2
  = ledger_state w
  ∧ (downloads (send_video_channels cfg env caption path channels stream_upload messages w).2
     = downloads w
     ∨ downloads (send_video_channels cfg env caption path channels stream_upload messages w).2
       = delete path (downloads w)).
Proof.
  revert messages w. induction channels as [|channel rest IH]; intros messages w.
  - simpl. auto.
  - destruct (downloads w !! path) as [size|] eqn:Hfile.
    + rewrite send_video_channels_step with (size := size) by done. cbv zeta.
      destruct (telegram env (length (calls w)) channel) as [msg|e].
      * match goal with
        | |- context [send_video_channels _ _ _ _ _ _ _ ?w2] =>
            destruct (IH (messages ++ [msg]) w2) as [L D]; rewrite L
        end.
        destruct (DELETE_LOCAL_COPY cfg); simpl in *.
        -- split; [done | right]. destruct D as [-> | ->]; [done | apply delete_delete_eq].
        -- done.
      * match goal with
        | |- context [send_video_channels _ _ _ _ _ _ _ ?w2] =>
            destruct (IH messages w2) as [L D]; rewrite L
        end.
        done.
    + rewrite send_video_channels_step_gone by done.
      match goal with
      | |- context [send_video_channels _ _ _ _ _ _ _ ?w2] =>
          destruct (IH messages w2) as [L D]; rewrite L
      end.
      done.
Qed.

(** With deletion disabled the loop asks every destination once. *)
Lemma send_video_channels_keeping caption path channels stream_upload messages w size :
  DELETE_LOCAL_COPY cfg = false →
  downloads w !! path = Some size →
  ∃ w',
    send_video_channels cfg env caption path channels stream_upload messages w
    = (Ret (messages
            ++ delivered env (length (calls w))
                 (map (λ ch, SendVideo ch (upload_of stream_upload path size)
                               (_truncate_text caption MAX_CAPTION_LENGTH)) channels)), w')
    ∧ calls w'
      = calls w
        ++ map (λ ch, (item w, SendVideo ch (upload_of stream_upload path size)
                                 (_truncate_text caption MAX_CAPTION_LENGTH))) channels
    ∧ downloads w' = downloads w.
Proof.
  intros Hkeep. revert messages w. induction channels as [|channel rest IH];
    intros messages w Hfile.
  - exists w. simpl. by rewrite !app_nil_r.
  - rewrite send_video_channels_step with (size := size) by done. cbv zeta.
    rewrite Hkeep. simpl delivered.
    destruct (telegram env (length (calls w)) channel) as [msg|e].
    + match goal with
      | |- context [send_video_channels _ _ _ _ _ _ _ ?w2] =>
          destruct (IH (messages ++ [msg]) w2) as (w' & -> & C & D); [done | ]
      end.
      exists w'. rewrite C, D. simpl. rewrite length_snoc, <- !app_assoc. done.
    + match goal with
      | |- context [send_video_channels _ _ _ _ _ _ _ ?w2] =>
          destruct (IH messages w2) as (w' & -> & C & D); [done | ]
      end.
      exists w'. rewrite C, D. simpl. rewrite length_snoc, <- !app_assoc. done.
Qed.

End VideoRequests.

(** ** What is sent *)

Section Texts.

Variable cfg : Config.
Variable env : Env.

Lemma text_request_mono message channels channels' c :
  channels ⊆ channels' → text_request message channels c → text_request message channels' c.
Proof. intros Hsub. destruct c; simpl; try done. intros [Hin ->]. auto. Qed.

(** The requests of [send_text] to one destination: each carries the
    message cut to the limit, there are at most [remaining] of them, and
    the first is made whenever a pass is left. *)
Lemma send_text_attempts_requests message channel retries attempt remaining messages w :
  ∃ new k,
    calls (send_text_attempts env message channel retries attempt remaining messages w).2
    = calls w ++ map (pair (item w)) new
    ∧ item (send_text_attempts env message channel retries attempt remaining messages w).2
      = item w
    ∧ Forall (text_request message [channel]) new
    ∧ asked new = replicate k channel
    ∧ (k ≤ remaining)%nat
    ∧ (remaining ≠ 0%nat →
       ∃ tail, new = SendMessage channel (_truncate_text message MAX_CAPTION_LENGTH) :: tail).
Proof.
  revert attempt w. induction remaining as [|remaining IH]; intros attempt w.
  - exists [], 0%nat. simpl. rewrite app_nil_r. split_and!; try done.
  - rewrite send_text_attempts_step. cbv zeta. set (c := SendMessage _ _).
    assert (Hc : text_request message [channel] c).
    { split; [apply list_elem_of_here | done]. }
    destruct (telegram env (length (calls w)) channel) as [msg|e] eqn:Hreply.
    + exists [c], 1%nat. simpl.
      split_and!; [done | done | by repeat constructor | done | lia | by eexists].
    + destruct e;
        try (exists [c], 1%nat; simpl;
             split_and!; [done | done | by repeat constructor | done | lia | by eexists]).
      * match goal with
        | |- context [send_text_attempts _ _ _ _ _ _ _ ?w2] =>
            destruct (IH (S attempt) w2) as (new & k & C & I & F & A & B & _)
        end.
        exists (c :: Sleep timeout :: new), (S k). rewrite C, I. simpl.
        rewrite <- !app_assoc. fold (asked new). rewrite A.
        split_and!; [done | done | by repeat constructor | done | lia | by eexists].
      * match goal with
        | |- context [send_text_attempts _ _ _ _ _ _ _ ?w2] =>
            destruct (IH (S attempt) w2) as (new & k & C & I & F & A & B & _)
        end.
        exists (c :: new), (S k). rewrite C, I. simpl.
        rewrite <- !app_assoc. fold (asked new). rewrite A.
        split_and!; [done | done | by repeat constructor | done | lia | by eexists].
Qed.

Lemma per_destination_cons k counts channel channels :
  per_destination (k :: counts) (channel :: channels)
  = replicate k channel ++ per_destination counts channels.
Proof. done. Qed.

Lemma per_destination_none (channels : list Chat) :
  per_destination (replicate (length channels) 0%nat) channels = [].
Proof. induction channels as [|channel rest IH]; [done | ]. simpl. exact IH. Qed.

(** The requests of [send_text], destination by destination. *)
Lemma send_text_channels_requests message channels retries messages w :
  ∃ new counts,
    calls (send_text_channels env message channels retries messages w).2
    = calls w ++ map (pair (item w)) new
    ∧ item (send_text_channels env message channels retries messages w).2 = item w
    ∧ Forall (text_request message channels) new
    ∧ length counts = length channels
    ∧ Forall (λ k, (k ≤ retries)%nat) counts
    ∧ asked new = per_destination counts channels
    ∧ (∀ channel rest, channels = channel :: rest → retries ≠ 0%nat →
         ∃ tail,
           new = SendMessage channel (_truncate_text message MAX_CAPTION_LENGTH) :: tail).
Proof.
  revert messages w. induction channels as [|channel rest IH]; intros messages w.
  - exists [], []. simpl. rewrite app_nil_r. split_and!; try done.
  - rewrite send_text_channels_cons.
    destruct (send_text_attempts_requests message channel retries 0 retries messages w)
      as (n1 & k & C1 & I1 & F1 & A1 & B1 & H1).
    assert (F1' : Forall (text_request message (channel :: rest)) n1).
    { eapply Forall_impl; [exact F1 | ]. intros c. apply text_request_mono.
      intros chat ->%list_elem_of_singleton. apply list_elem_of_here. }
    destruct (send_text_attempts env message channel retries 0 retries messages w)
      as [[messages'|e] w1]; cbn [fst snd] in *.
    + destruct (IH messages' w1) as (n2 & counts & C2 & I2 & F2 & L2 & B2 & A2 & _).
      exists (n1 ++ n2), (k :: counts).
      rewrite C2, C1, I2, I1, map_app, asked_app, A1, A2, per_destination_cons, <- app_assoc.
      split_and!; [done | done | | simpl; by rewrite L2 | by constructor | done | ].
      * apply Forall_app. split; [done | ].
        eapply Forall_impl; [exact F2 | ]. intros c. apply text_request_mono.
        intros chat Hin. by apply list_elem_of_further.
      * intros channel' rest' [= <- <-] Hr. destruct (H1 Hr) as [tail ->]. by eexists.
    + exists n1, (k :: replicate (length rest) 0%nat).
      rewrite per_destination_cons, per_destination_none, app_nil_r.
      split_and!; [done | done | done | simpl; by rewrite length_replicate | | done | ].
      * constructor; [done | ]. apply Forall_replicate. lia.
      * intros channel' rest' [= <- <-] Hr. destruct (H1 Hr) as [tail ->]. by eexists.
Qed.

(** The requests of the loop of [send_video] while the file is there: one
    to each destination of a leading part of the list, each with the
    caption cut to the limit. *)
Lemma send_video_channels_requests caption path channels stream_upload messages w size :
  downloads w !! path = Some size →
  ∃ reached,
    reached `prefix_of` channels
    ∧ (channels ≠ [] → reached ≠ [])
    ∧ calls (send_video_channels cfg env caption path channels stream_upload messages w).2
      = calls w
        ++ map (λ ch, (item w, SendVideo ch (upload_of stream_upload path size)
                                 (_truncate_text caption MAX_CAPTION_LENGTH))) reached.
Proof.
  revert messages w. induction channels as [|channel rest IH]; intros messages w Hfile.
  - exists []. simpl. by rewrite app_nil_r.
  - rewrite send_video_channels_step with (size := size) by done. cbv zeta.
    destruct (telegram env (length (calls w)) channel) as [msg|e].
    + destruct (DELETE_LOCAL_COPY cfg).
      * match goal with
        | |- context [send_video_channels _ _ _ _ _ _ _ ?w2] =>
            destruct (send_video_channels_gone cfg env caption path rest stream_upload
                        (messages ++ [msg]) w2) as (w' & -> & C & _)
        end.
        { simpl. apply lookup_delete_eq. }
        exists [channel]. split_and!; [by apply prefix_cons, prefix_nil | done | ].
        cbn [snd]. by rewrite C.
      * match goal with
        | |- context [send_video_channels _ _ _ _ _ _ _ ?w2] =>
            destruct (IH (messages ++ [msg]) w2) as (reached & Hp & _ & ->); [done | ]
        end.
        exists (channel :: reached). split_and!; [by apply prefix_cons | done | ].
        simpl. by rewrite <- app_assoc.
    + match goal with
      | |- context [send_video_channels _ _ _ _ _ _ _ ?w2] =>
          destruct (IH messages w2) as (reached & Hp & _ & ->); [done | ]
      end.
      exists (channel :: reached). split_and!; [by apply prefix_cons | done | ].
      simpl. by rewrite <- app_assoc.
Qed.

(** The requests of [send_video]: none when the file is refused. *)
Lemma send_video_requests caption video_path channels retries stream_upload w :
  ∃ reached upload,
    reached `prefix_of` channels
    ∧ calls (send_video cfg env caption video_path channels retries stream_upload w).2
      = calls w
        ++ map (λ ch, (item w, SendVideo ch upload
                                 (_truncate_text caption MAX_CAPTION_LENGTH))) reached
    ∧ ((_validate_video cfg video_path w).1 = Ret tt → channels ≠ [] → reached ≠ []).
Proof.
  unfold send_video, bind. rewrite _validate_video_run.
  destruct (downloads w !! video_path) as [size|] eqn:Hfile.
  2: { exists [], (FileName video_path). simpl. rewrite app_nil_r.
       split_and!; [apply prefix_nil | done | done]. }
  destruct (negb _).
  { exists [], (FileName video_path). simpl. rewrite app_nil_r.
    split_and!; [apply prefix_nil | done | done]. }
  destruct (_ <? size).
  { exists [], (FileName video_path). simpl. rewrite app_nil_r.
    split_and!; [apply prefix_nil | done | done]. }
  destruct (send_video_channels_requests caption video_path channels stream_upload [] w size
              Hfile) as (reached & Hp & Hne & C).
  exists reached, (upload_of stream_upload video_path size). auto.
Qed.

(** The calls of [download]: the one to yt-dlp. *)
Lemma download_calls url filename quality codec w :
  calls (download cfg env url filename quality codec w).2
  = calls w ++ [(item w, YtDlp url (filename ++ lit ".%(ext)s")
                           (_build_format_string quality codec))]
  ∧ item (download cfg env url filename quality codec w).2 = item w.
Proof.
  rewrite download_run. cbv zeta.
  destruct (yt_dlp env (length (calls w)) url) as [ext size| |]; [ | done | done].
  by destruct (_ <? size).
Qed.

(** The calls of the handler of a download failure: those of [send_text]
    on the notice. *)
Lemma _handle_download_failure_requests video w :
  ∃ new,
    calls (_handle_download_failure cfg env video w).2 = calls w ++ map (pair (item w)) new
    ∧ Forall (sends_of video) new.
Proof.
  unfold _handle_download_failure, try_except, bind at 1, result.
  destruct (dict_item (Video.title video)) as [title|e] eqn:Htitle.
  2: { exists []. cbn [fst snd logger modify calls with_journal]. by rewrite app_nil_r. }
  unfold bind, send_text.
  match goal with
  | |- context [send_text_channels env ?m (CHANNEL_IDS cfg) 3 [] w] =>
      assert (Hm : notice_of video title = m) by (unfold notice_of; reflexivity);
      set (message := m) in *
  end.
  destruct (send_text_channels_requests message (CHANNEL_IDS cfg) 3 [] w)
    as (new & counts & C & I & F & _).
  exists new. split.
  - destruct (send_text_channels env message (CHANNEL_IDS cfg) 3 [] w) as [[msgs|e] w1];
      cbn [fst snd ret logger modify calls with_journal] in *; exact C.
  - eapply Forall_impl; [exact F | ]. intros c.
    destruct c; cbn [text_request sends_of]; try done.
    intros [_ ->]. exists title. by rewrite Hm.
Qed.

(** The calls of the pipeline of one item. *)
Lemma _process_single_video_requests video video_id w :
  ∃ new,
    calls (_process_single_video cfg env video video_id w).2
    = calls w ++ map (pair (item w)) new
    ∧ Forall (sends_of video) new.
Proof.
  rewrite _process_single_video_run.
  destruct (download_calls (Video.url video) (lit "video_" ++ video_id) (lit "720p") None w)
    as [Cd Id].
  destruct (download cfg env (Video.url video) (lit "video_" ++ video_id) (lit "720p") None w)
    as [[path|e] w1]; cbn [fst snd] in *.
  - destruct (_generate_caption video) as [caption|e] eqn:Hcaption.
    2: { eexists [_]. split; [exact Cd | by repeat constructor]. }
    destruct (send_video_requests caption path (CHANNEL_IDS cfg) 3 true w1)
      as (reached & upload & _ & Cs & _).
    destruct (send_video cfg env caption path (CHANNEL_IDS cfg) 3 true w1)
      as [[msgs|e] w2] eqn:Hs; cbn [fst snd] in *.
    + assert (Is : item w2 = item w1).
      { destruct (send_video_sends cfg env (λ _, True) ltac:(done)
                    caption path (CHANNEL_IDS cfg) 3 true w1) as (? & _ & _ & Hi & _).
        by rewrite Hs in Hi. }
      rewrite save_processed_video_run. cbv zeta.
      eexists (_ :: map (λ ch, SendVideo ch upload _) reached ++ [OpenLedger true]).
      split.
      * destruct (ledger_fault env (length (calls w2)));
          [ | destruct (encodable (video_id ++ [LF]))];
          cbn [logger modify calls with_calls with_journal with_processed with_ledger_file
                 snd];
          rewrite Cs, Cd, Is, Id, map_cons, map_app, map_map, <- !app_assoc; done.
      * constructor; [done | ]. apply Forall_app. split; [ | by repeat constructor].
        apply Forall_forall. intros c (ch & -> & _)%list_elem_of_fmap. by exists caption.
    + eexists (_ :: map (λ ch, SendVideo ch upload _) reached). split.
      * rewrite Cs, Cd, Id, map_cons, map_map, <- app_assoc. done.
      * constructor; [done | ].
        apply Forall_forall. intros c (ch & -> & _)%list_elem_of_fmap. by exists caption.
  - destruct (_handle_download_failure_requests video
                (with_journal (journal w1 ++ [DownloadFailed video_id]) w1))
      as (new & C & F).
    eexists (_ :: new). split.
    + rewrite C. cbn [calls with_journal item]. rewrite Cd, Id, map_cons, <- app_assoc. done.
    + by constructor.
Qed.

(** After a download that returned, the pipeline publishes under the
    generated caption: its calls are those of [send_video] on that caption
    and, when the publication returns, the one that opens the ledger. *)
Lemma _process_single_video_publishes video video_id w path w1 caption :
  download cfg env (Video.url video) (lit "video_" ++ video_id) (lit "720p") None w
  = (Ret path, w1) →
  _generate_caption video = Ret caption →
  ∃ tail,
    calls (_process_single_video cfg env video video_id w).2
    = calls (send_video cfg env caption path (CHANNEL_IDS cfg) 3 true w1).2 ++ tail
    ∧ (tail = [] ∨ ∃ tag, tail = [(tag, OpenLedger true)]).
Proof.
  intros Hd Hcaption. rewrite _process_single_video_run, Hd, Hcaption.
  destruct (send_video cfg env caption path (CHANNEL_IDS cfg) 3 true w1) as [[msgs|e] w2].
  - rewrite save_processed_video_run. cbv zeta. eexists. split; [ | right; by eexists].
    destruct (ledger_fault env (length (calls w2)));
      [ | destruct (encodable (video_id ++ [LF]))]; done.
  - exists []. cbn [snd]. rewrite app_nil_r. auto.
Qed.

End Texts.

(** ** The properties of the specification *)

(** C2. A sweep makes no call at all under an identifier that is in the set
    of processed videos when it starts (neither the download nor any of the
    two publications), and no download into the file of that identifier;
    the candidate with that identifier is passed over with the state as it
    was. *)
Theorem sweep_skips_processed (cfg : Config) (env : Env) (w : World) (i : str) :
  i ∈ processed_videos w →
  item w = None →
  (∃ new, calls (process_videos cfg env w).2 = calls w ++ new
          ∧ (∀ c, (Some i, c) ∉ new)
          ∧ (∀ tag url format,
               (tag, YtDlp url (lit "video_" ++ i ++ lit ".%(ext)s") format) ∉ new))
  ∧ (∀ video rest, video_id_of video = i →
       process_each cfg env (video :: rest) w = process_each cfg env rest w).
Proof.
  intros Hin Hitem. split.
  - destruct (process_videos_calls cfg env w) as (new & E & F & _).
    exists new. split_and!; [done | | ].
    + intros c Hc. eapply Forall_forall in F; [ | exact Hc].
      destruct F as [F | (id & F & Hout & _)]; simpl in F.
      * congruence.
      * by simplify_eq.
    + intros tag url format Hc. eapply Forall_forall in F; [ | exact Hc].
      destruct F as [F | (id & _ & Hout & F)].
      * congruence.
      * cbv beta iota delta [pipeline_call snd] in F.
        apply app_inv_head, app_inv_tail in F. by subst id.
  - intros video rest <-. by apply process_each_skip.
Qed.

(** C4 (amended). [save_processed_video] appends to the file and then adds
    to the set, and it never raises. When opening the file fails the error
    is logged and the set is left as it was; the same holds for an
    identifier that cannot be encoded. *)
Theorem save_processed_video_outcome (env : Env) (video_id : str) (w : World) :
  let run := save_processed_video env video_id w in
  let old := default [] (ledger_file w) in
  run.1 = Ret tt
  ∧ if ledger_fault env (length (calls w)) then
      ledger_file run.2 = ledger_file w
      ∧ processed_videos run.2 = processed_videos w
      ∧ journal run.2 = journal w ++ [ErrorSaving video_id OSError]
    else if encodable (video_id ++ [LF]) then
      ledger_file run.2 = Some (old ++ write_newlines (linesep env) (video_id ++ [LF]))
      ∧ processed_videos run.2 = processed_videos w ∪ {[video_id]}
      ∧ journal run.2 = journal w
    else
      ledger_file run.2 = Some old
      ∧ processed_videos run.2 = processed_videos w
      ∧ journal run.2 = journal w ++ [ErrorSaving video_id UnicodeEncodeError].
Proof.
  cbv zeta. rewrite save_processed_video_run. cbv zeta.
  destruct (ledger_fault env (length (calls w))); [done | ].
  destruct (encodable (video_id ++ [LF])); done.
Qed.

(** C8. A caption that is generated carries the title and the description
    with every asterisk replaced by a star, character for character (for a
    title or a description that is [None] no caption is generated:
    [AttributeError]). Every text that goes out to a destination is
    [_truncate_text] of the text to send, the generated caption in the
    pipeline of an item (which hands it to [send_video] after every
    download that returned): at most 1024 characters, the text itself up
    to that length and its first 1021 characters followed by three dots
    beyond. The first destination is sent that text whenever there is one
    to ask. *)
Theorem caption_policy (cfg : Config) (env : Env) (video : Video.t) :
  (match _generate_caption video with
  | Ret caption =>
      ∃ title description,
        dict_get (Video.title video) (lit "Без названия") = Some title
        ∧ dict_get (Video.description video) [] = Some description
        ∧ caption
          = lit "*" ++ replace asterisk star title ++ lit "*" ++ [LF; LF]
            ++ replace asterisk star description ++ [LF; LF]
            ++ lit "📅 " ++ strftime (Video.date video) ++ lit " | 👀 "
            ++ format_int (dict_get (Video.views video) 0%Z)
        ∧ (asterisk ∉ replace asterisk star title)
        ∧ (asterisk ∉ replace asterisk star description)
  | Raise e =>
      e = AttributeError
      ∧ (Video.title video = PyNone ∨ Video.description video = PyNone)
   end)
  ∧ (∀ (s : str) i c, s !! i = Some c →
       replace asterisk star s !! i = Some (if decide (c = asterisk) then star else c))
  ∧ (∀ s : str, length (replace asterisk star s) = length s)
  ∧ (∀ text : str,
       (length (_truncate_text text MAX_CAPTION_LENGTH) ≤ 1024)%nat
       ∧ ((length text ≤ 1024)%nat → _truncate_text text MAX_CAPTION_LENGTH = text)
       ∧ ((1024 < length text)%nat →
          _truncate_text text MAX_CAPTION_LENGTH = take 1021 text ++ lit "..."))
  ∧ (∀ message channels retries w,
       ∃ new,
         calls (send_text env message channels retries w).2
         = calls w ++ map (pair (item w)) new
         ∧ Forall (text_request message channels) new
         ∧ (∀ channel rest, channels = channel :: rest → retries ≠ 0%nat →
              ∃ tail,
                new = SendMessage channel (_truncate_text message MAX_CAPTION_LENGTH)
                      :: tail))
  ∧ (∀ caption video_path channels retries stream_upload w,
       ∃ reached upload,
         reached `prefix_of` channels
         ∧ calls (send_video cfg env caption video_path channels retries stream_upload w).2
           = calls w
             ++ map (λ ch, (item w, SendVideo ch upload
                                      (_truncate_text caption MAX_CAPTION_LENGTH))) reached
         ∧ ((_validate_video cfg video_path w).1 = Ret tt → channels ≠ [] → reached ≠ []))
  ∧ (∀ video_id w,
       ∃ new,
         calls (_process_single_video cfg env video video_id w).2
         = calls w ++ map (pair (item w)) new
         ∧ Forall (sends_of video) new)
  ∧ (∀ video_id w path w1 caption,
       download cfg env (Video.url video) (lit "video_" ++ video_id) (lit "720p") None w
       = (Ret path, w1) →
       _generate_caption video = Ret caption →
       ∃ tail,
         calls (_process_single_video cfg env video video_id w).2
         = calls (send_video cfg env caption path (CHANNEL_IDS cfg) 3 true w1).2 ++ tail
         ∧ (tail = [] ∨ ∃ tag, tail = [(tag, OpenLedger true)])).
Proof.
  split_and!.
  - destruct (_generate_caption video) as [caption|e] eqn:Hcaption;
      [ | by apply _generate_caption_raises].
    unfold _generate_caption in Hcaption.
    destruct (dict_get (Video.title video) (lit "Без названия")) as [title|];
      cbn [replace_of] in Hcaption; [ | done].
    destruct (dict_get (Video.description video) []) as [description|];
      cbn [replace_of] in Hcaption; [ | done].
    injection Hcaption as <-. exists title, description.
    split_and!; [done | done | done | by apply replace_no_old | by apply replace_no_old].
  - intros s i c. apply replace_lookup.
  - intros s. apply replace_length.
  - intros text. split_and!;
      [apply truncate_length | apply truncate_short | apply truncate_long].
  - intros message channels retries w. unfold send_text.
    destruct (send_text_channels_requests env message channels retries [] w)
      as (new & counts & C & _ & F & _ & _ & _ & First).
    by exists new.
  - intros. apply send_video_requests.
  - intros. apply _process_single_video_requests.
  - intros video_id w path w1 caption. apply _process_single_video_publishes.
Qed.

(** The handler of a publication failure never raises and touches nothing
    but the download directory: with deletion enabled and
    the item's file present it empties the whole directory, the files of
    other items included; otherwise it leaves the directory as it was. The
    set of processed videos and the ledger file stay as they were. *)
Theorem posting_failure_clears_download_directory
    (cfg : Config) (video_path : str) (w : World) :
  let run := _handle_posting_failure cfg video_path w in
  run.1 = Ret tt
  ∧ downloads run.2
    = (if DELETE_LOCAL_COPY cfg && bool_decide (is_Some (downloads w !! video_path))
       then ∅ else downloads w)
  ∧ processed_videos run.2 = processed_videos w
  ∧ ledger_file run.2 = ledger_file w
  ∧ calls run.2 = calls w.
Proof.
  cbv zeta. rewrite _handle_posting_failure_run.
  destruct (_ && _); done.
Qed.

(** C10. With deletion enabled, [send_video] unlinks the file right after
    the first destination that takes it: the destinations before it were
    each asked once, the ones after it are not contacted at all, and the
    only receipt is that of the first success. In particular, when the
    first destination succeeds no other destination is sent the file. *)
Theorem send_video_stops_after_first_success
    (cfg : Config) (env : Env) (caption video_path : str)
    (pre : list Chat) (channel : Chat) (post : list Chat)
    (retries : nat) (stream_upload : bool) (w : World) (msg : Message) :
  DELETE_LOCAL_COPY cfg = true →
  (_validate_video cfg video_path w).1 = Ret tt →
  (∀ k ch, pre !! k = Some ch → ∃ e, telegram env (length (calls w) + k) ch = Fails e) →
  telegram env (length (calls w) + length pre) channel = Delivered msg →
  let run := send_video cfg env caption video_path (pre ++ channel :: post)
               retries stream_upload w in
  run.1 = Ret [msg]
  ∧ downloads run.2 = delete video_path (downloads w)
  ∧ ∃ size, downloads w !! video_path = Some size
            ∧ calls run.2
              = calls w
                ++ map (λ ch, (item w, SendVideo ch (upload_of stream_upload video_path size)
                                         (_truncate_text caption MAX_CAPTION_LENGTH)))
                     (pre ++ [channel]).
Proof.
  intros Hdel Hvalid Hfail Hok. cbv zeta.
  apply _validate_video_ok in Hvalid as [[size Hfile] Hrun].
  unfold send_video, bind. rewrite Hrun.
  destruct (send_video_channels_first_success cfg env caption video_path pre channel post
              stream_upload [] w size msg Hdel Hfile Hfail Hok) as (w' & E & D & C).
  rewrite E. simpl. split_and!; [done | done | by exists size].
Qed.

(** Publications under failures of the Telegram API. [send_text]
    returns whenever the failures are errors of the Telegram API (rate
    limit, chat not found, network, any other API error), [send_video]
    returns whatever its uploads raise once the file has passed
    validation; and what they return is exactly the receipts of the
    deliveries that succeeded, in order. *)
Theorem publish_never_raises (cfg : Config) (env : Env) (channels : list Chat)
    (retries : nat) (w : World) :
  (∀ message,
     (∀ n chat e, telegram env n chat = Fails e → is_TelegramAPIError e = true) →
     ∃ new,
       (send_text env message channels retries w).1
       = Ret (delivered env (length (calls w)) new)
       ∧ calls (send_text env message channels retries w).2
         = calls w ++ map (pair (item w)) new)
  ∧ (∀ caption video_path stream_upload,
       (_validate_video cfg video_path w).1 = Ret tt →
       ∃ new,
         (send_video cfg env caption video_path channels retries stream_upload w).1
         = Ret (delivered env (length (calls w)) new)
         ∧ calls (send_video cfg env caption video_path channels retries stream_upload w).2
           = calls w ++ map (pair (item w)) new).
Proof.
  split.
  - intros message Hapi. unfold send_text.
    destruct (send_text_channels_returns env message channels retries [] w Hapi)
      as (new & R & C).
    by exists new.
  - intros caption video_path stream_upload Hvalid.
    apply _validate_video_ok in Hvalid as [_ Hrun].
    unfold send_video, bind. rewrite Hrun.
    destruct (send_video_channels_returns cfg env caption video_path channels
                stream_upload [] w) as (new & R & C).
    by exists new.
Qed.

(** C5 (amended). Identifiers that hold no line boundary of
    [str.splitlines] and can be encoded, recorded one after another into a
    ledger file that starts empty or missing, are read back at the next
    start as exactly the set of those identifiers, duplicates collapsed. *)
Theorem ledger_round_trip (env : Env) (video_ids : list str) (w : World) :
  (∀ n, ledger_fault env n = false) →
  linesep env = [LF] ∨ linesep env = [CR; LF] →
  Forall (λ video_id, no_linebreak video_id ∧ encodable video_id = true) video_ids →
  default [] (ledger_file w) = [] →
  let recorded := (record_all env video_ids w).2 in
  let restarted := (startup_state env recorded).2 in
  processed_videos restarted = list_to_set video_ids
  ∧ size (processed_videos restarted) = length (remove_dups video_ids).
Proof.
  intros Hio Hsep Hids Hfile. cbv zeta.
  destruct (record_all_healthy env video_ids w Hio Hids) as (_ & _ & L & Hsome).
  rewrite Hfile in L. simpl in L.
  assert (Hset : processed_videos (startup_state env (record_all env video_ids w).2).2
                 = list_to_set video_ids).
  { destruct (ledger_file (record_all env video_ids w).2) as [content|] eqn:Hcontent.
    - rewrite startup_state_reads with (content := content) by done.
      simpl in L. subst content.
      rewrite universal_newlines_ledger_text, splitlines_ledger_text; [done | | done | ].
      + eapply Forall_impl; [exact Hids | ]. by intros id [? ?].
      + eapply Forall_impl; [exact Hids | ]. by intros id [? ?].
    - rewrite startup_state_missing by done.
      destruct video_ids as [|video_id rest]; [done | ].
      destruct Hsome as [? ?]; [done | congruence]. }
  split; [done | ]. rewrite Hset.
  rewrite <- (size_list_to_set (C := gset str) (remove_dups video_ids))
    by apply NoDup_remove_dups.
  f_equal. apply set_eq. intros x.
  by rewrite !elem_of_list_to_set, elem_of_remove_dups.
Qed.

(** [send_text] on a destination that is rate-limited twice and then takes
    the message: two sleeps of the durations asked for, three requests, one
    receipt. *)
Lemma send_text_rate_limited_twice (env : Env) (message : str) (channel : Chat)
    (w : World) (t1 t2 : N) (msg : Message) :
  telegram env (length (calls w)) channel = Fails (RetryAfter t1) →
  telegram env (length (calls w) + 2) channel = Fails (RetryAfter t2) →
  telegram env (length (calls w) + 4) channel = Delivered msg →
  ∃ w', send_text env message [channel] 3 w = (Ret [msg], w')
        ∧ map snd (calls w')
          = map snd (calls w)
            ++ [SendMessage channel (_truncate_text message MAX_CAPTION_LENGTH); Sleep t1;
                SendMessage channel (_truncate_text message MAX_CAPTION_LENGTH); Sleep t2;
                SendMessage channel (_truncate_text message MAX_CAPTION_LENGTH)].
Proof.
  intros H1 H2 H3. eexists. split.
  - unfold send_text.
    change (send_text_channels env message [channel] 3 [])
      with (let! messages' := send_text_attempts env message channel 3 0 3 [] in
            send_text_channels env message [] 3 messages').
    unfold bind. rewrite send_text_attempts_step. cbv zeta. rewrite H1.
    rewrite send_text_attempts_step. cbv zeta. simpl calls. rewrite !length_snoc.
    replace (S (S (length (calls w)))) with (length (calls w) + 2)%nat by lia. rewrite H2.
    rewrite send_text_attempts_step. cbv zeta. simpl calls. rewrite !length_snoc.
    replace (S (S (S (S (length (calls w)))))) with (length (calls w) + 4)%nat by lia.
    rewrite H3. reflexivity.
  - simpl. rewrite !map_app, <- !app_assoc. done.
Qed.

(** C1 (the code at a failing input). Every destination refuses the video
    of item 100_3, no receipt comes back, and the identifier is recorded
    all the same, in the set and in the file. *)
Theorem commits_when_every_destination_fails :
  let env := outside [video_100_3] (8 * MB) never_reachable false in
  let run := process_videos config_py env fresh in
  delivered env 0 (map snd (calls run.2)) = []
  ∧ journal run.2
    = [StartingCycle; VideoFailed channel1 ChatNotFound; VideoFailed channel2 ChatNotFound;
       Processed (lit "100_3")]
  ∧ processed_videos run.2 = {[ lit "100_3" ]}
  ∧ ledger_file run.2 = Some (lit "100_3" ++ [LF]).
Proof. vm_compute. repeat split. Qed.

(** C3 (the code at a failing input). The download of item 100_3 is 80 MB
    against a limit of 50 MB: the failure notice goes out and the
    identifier is not recorded, but the file stays in the download
    directory. *)
Theorem oversize_artifact_stays_on_disk :
  let env := outside [video_100_3] (80 * MB) always_delivers false in
  let run := process_videos config_py env fresh in
  downloads run.2 !! lit "video_100_3.mp4" = Some (80 * MB)
  ∧ journal run.2
    = [StartingCycle; UnexpectedError VideoSizeExceededError; DownloadFailed (lit "100_3");
       MessageSent channel1 {| message_id := 2 |}; MessageSent channel2 {| message_id := 3 |}]
  ∧ processed_videos run.2 = ∅
  ∧ ledger_file run.2 = None.
Proof. vm_compute. repeat split. Qed.

(** C6 (the code at a failing input). A destination that is rate-limited
    once and would deliver afterwards: [send_video] asks it once, does not
    sleep and returns no receipt, where [send_text] sleeps the two seconds
    and delivers at the second request. *)
Theorem send_video_does_not_retry :
  let env := outside [] 0 (rate_limited_first 1 2) false in
  let path := lit "video_100_3.mp4" in
  let w := with_files [(path, 8 * MB)] in
  let video := send_video config_py env (lit "Demo") path [channel1] 3 true w in
  let text := send_text env (lit "Demo") [channel1] 3 w in
  video.1 = Ret []
  ∧ map snd (calls video.2) = [SendVideo channel1 (InputFile path (8 * MB)) (lit "Demo")]
  ∧ text.1 = Ret [{| message_id := 2 |}]
  ∧ map snd (calls text.2)
    = [SendMessage channel1 (lit "Demo"); Sleep 2; SendMessage channel1 (lit "Demo")].
Proof. vm_compute. repeat split. Qed.

(** C4 (counterexample). The ledger file cannot be opened: the call
    returns, and the identifier is not in the set. *)
Lemma save_processed_video_fault_skips_the_set :
  let env := outside [] 0 always_delivers true in
  let run := save_processed_video env (lit "100_1") fresh in
  ledger_fault env (length (calls fresh)) = true
  ∧ run.1 = Ret tt
  ∧ processed_videos run.2 = ∅
  ∧ lit "100_1" ∉ processed_videos run.2.
Proof. cbv zeta. split_and!; [done | done | done | ]. vm_compute. set_solver. Qed.

(** C5 (counterexample). An identifier with a carriage return holds no
    newline, and comes back from the file as two identifiers. *)
Lemma ledger_round_trip_carriage_return :
  let env := outside [] 0 always_delivers false in
  let video_ids := [[97; CR; 98]] in
  let recorded := (record_all env video_ids fresh).2 in
  let restarted := (startup_state env recorded).2 in
  Forall (λ video_id : str, LF ∉ video_id) video_ids
  ∧ processed_videos restarted = {[ [97]; [98] ]}
  ∧ processed_videos restarted ≠ list_to_set video_ids.
Proof.
  cbv zeta. split_and!.
  - repeat constructor. intros H. repeat (apply elem_of_cons in H as [H|H]; [done | ]).
    by apply elem_of_nil in H.
  - vm_compute. reflexivity.
  - intros H. assert (Hin : [97] ∈ (list_to_set [[97; CR; 98]] : gset str)).
    { rewrite <- H. vm_compute. set_solver. }
    set_solver.
Qed.

(** C9 (the code at a failing input). With deletion enabled, every
    destination refuses the video of item 100_3 while the file of item
    100_1 is in the download directory: the handler of a publication
    failure does not run, nothing is removed, the artifact of 100_3
    included, and the identifier is recorded. *)
Theorem publish_failure_removes_nothing :
  let env := outside [video_100_3] (8 * MB) never_reachable false in
  let w := with_files [(lit "video_100_1.mp4", 9 * MB)] in
  let run := process_videos config_py env w in
  DELETE_LOCAL_COPY config_py = true
  ∧ delivered env 0 (map snd (calls run.2)) = []
  ∧ journal run.2
    = [StartingCycle; VideoFailed channel1 ChatNotFound; VideoFailed channel2 ChatNotFound;
       Processed (lit "100_3")]
  ∧ downloads run.2 !! lit "video_100_3.mp4" = Some (8 * MB)
  ∧ downloads run.2 !! lit "video_100_1.mp4" = Some (9 * MB)
  ∧ processed_videos run.2 = {[ lit "100_3" ]}
  ∧ ledger_file run.2 = Some (lit "100_3" ++ [LF]).
Proof. vm_compute. repeat split. Qed.

(** C7 (the code at a failing input). The first destination takes the
    message and the request to the second breaks with an exception that is
    not an error of the Telegram API: [send_text] raises it, and the
    receipt of the first destination is lost with it. [send_video] under
    the same answers logs the failure and returns the receipt of the first
    destination. *)
Theorem send_text_raises_on_other_exception :
  let env := outside [] 0 second_request_breaks false in
  let path := lit "video_100_3.mp4" in
  let w := with_files [(path, 8 * MB)] in
  let text := send_text env (lit "Demo") [channel1; channel2] 3 w in
  let video := send_video config_keeping env (lit "Demo") path [channel1; channel2] 3 true w in
  text.1 = Raise OtherException
  ∧ map snd (calls text.2)
    = [SendMessage channel1 (lit "Demo"); SendMessage channel2 (lit "Demo")]
  ∧ journal text.2 = [MessageSent channel1 {| message_id := 0 |}]
  ∧ video.1 = Ret [{| message_id := 0 |}]
  ∧ journal video.2
    = [VideoSent channel1 {| message_id := 0 |}; VideoFailed channel2 OtherException].
Proof. vm_compute. repeat split. Qed.

(** Had the handler of a publication failure run: the file of item 100_2
    is in the download directory when it is called for item 100_1, and is
    gone after it. *)
Lemma posting_failure_removes_other_items :
  let w := with_files [(lit "video_100_1.mp4", 8 * MB); (lit "video_100_2.mp4", 9 * MB)] in
  let run := _handle_posting_failure config_py (lit "video_100_1.mp4") w in
  downloads w !! lit "video_100_2.mp4" = Some (9 * MB)
  ∧ downloads run.2 !! lit "video_100_2.mp4" = None.
Proof. vm_compute. split; reflexivity. Qed.

(** ** The theorems at concrete inputs *)

(** C2 at a sweep that finds 100_1 and 100_2 with 100_1 already processed. *)
Lemma sweep_skips_processed_witness :
  let env := outside [video_100_1; video_100_2] (8 * MB) always_delivers false in
  let w := with_processed {[ lit "100_1" ]} fresh in
  (∃ new, calls (process_videos config_py env w).2 = calls w ++ new
          ∧ (∀ c, (Some (lit "100_1"), c) ∉ new)
          ∧ (∀ tag url format,
               (tag, YtDlp url (lit "video_" ++ lit "100_1" ++ lit ".%(ext)s") format)
               ∉ new))
  ∧ (∀ video rest, video_id_of video = lit "100_1" →
       process_each config_py env (video :: rest) w = process_each config_py env rest w).
Proof.
  apply (sweep_skips_processed config_py
           (outside [video_100_1; video_100_2] (8 * MB) always_delivers false)
           (with_processed {[ lit "100_1" ]} fresh) (lit "100_1")).
  - simpl. apply elem_of_singleton. reflexivity.
  - reflexivity.
Defined.

(** C5 at three recordings of two identifiers. *)
Lemma ledger_round_trip_witness :
  let env := outside [] 0 always_delivers false in
  let video_ids := [lit "100_1"; lit "100_2"; lit "100_1"] in
  let recorded := (record_all env video_ids fresh).2 in
  let restarted := (startup_state env recorded).2 in
  processed_videos restarted = list_to_set video_ids
  ∧ size (processed_videos restarted) = length (remove_dups video_ids).
Proof.
  apply (ledger_round_trip (outside [] 0 always_delivers false)
           [lit "100_1"; lit "100_2"; lit "100_1"] fresh).
  - intros n. reflexivity.
  - left. reflexivity.
  - apply plain_identifiers. vm_compute. reflexivity.
  - reflexivity.
Defined.

(** The publications at two destinations, the first rate-limited twice. *)
Lemma publish_never_raises_witness :
  let env := outside [] 0 (rate_limited_first 3 2) false in
  let path := lit "video_100_3.mp4" in
  let w := with_files [(path, 8 * MB)] in
  (∃ new,
     (send_text env (lit "Demo") [channel1; channel2] 3 w).1
     = Ret (delivered env (length (calls w)) new)
     ∧ calls (send_text env (lit "Demo") [channel1; channel2] 3 w).2
       = calls w ++ map (pair (item w)) new)
  ∧ (∃ new,
       (send_video config_py env (lit "Demo") path [channel1; channel2] 3 true w).1
       = Ret (delivered env (length (calls w)) new)
       ∧ calls (send_video config_py env (lit "Demo") path [channel1; channel2] 3 true w).2
         = calls w ++ map (pair (item w)) new).
Proof.
  cbv zeta.
  destruct (publish_never_raises config_py (outside [] 0 (rate_limited_first 3 2) false)
              [channel1; channel2] 3 (with_files [(lit "video_100_3.mp4", 8 * MB)]))
    as [Htext Hvideo].
  split.
  - apply Htext. intros n chat e. simpl. unfold rate_limited_first.
    destruct (n <? 3)%nat; intros H; inversion H; reflexivity.
  - apply Hvideo. vm_compute. reflexivity.
Defined.

(** C10 at two destinations, the first of which takes the video. *)
Lemma send_video_stops_after_first_success_witness :
  let env := outside [] 0 always_delivers false in
  let path := lit "video_100_3.mp4" in
  let w := with_files [(path, 8 * MB)] in
  let run := send_video config_py env (lit "Demo") path ([] ++ channel1 :: [channel2])
               3 true w in
  run.1 = Ret [{| message_id := 0 |}]
  ∧ downloads run.2 = delete path (downloads w)
  ∧ ∃ size, downloads w !! path = Some size
            ∧ calls run.2
              = calls w
                ++ map (λ ch, (item w, SendVideo ch (upload_of true path size)
                                         (_truncate_text (lit "Demo") MAX_CAPTION_LENGTH)))
                     ([] ++ [channel1]).
Proof.
  apply (send_video_stops_after_first_success config_py
           (outside [] 0 always_delivers false) (lit "Demo") (lit "video_100_3.mp4")
           [] channel1 [channel2] 3 true
           (with_files [(lit "video_100_3.mp4", 8 * MB)]) {| message_id := 0 |}).
  - reflexivity.
  - vm_compute. reflexivity.
  - intros k ch H. discriminate H.
  - reflexivity.
Defined.

(** ** What a sweep records *)

Lemma ledger_lines_app (sep : str) (a1 a2 : list str) :
  ledger_lines sep (a1 ++ a2) = ledger_lines sep a1 ++ ledger_lines sep a2.
Proof.
  unfold ledger_lines. induction a1 as [|video_id a1 IH]; [done | ].
  simpl. by rewrite IH, <- app_assoc.
Qed.

Lemma committed_nothing (env : Env) (w w' : World) :
  processed_videos w' = processed_videos w → ledger_file w' = ledger_file w →
  committed env [] w w'.
Proof.
  intros Hp Hl. unfold committed. simpl.
  by rewrite Hp, Hl, union_empty_r_L, app_nil_r.
Qed.

Lemma committed_trans (env : Env) (a1 a2 : list str) (w w1 w2 : World) :
  committed env a1 w w1 → committed env a2 w1 w2 → committed env (a1 ++ a2) w w2.
Proof.
  intros [P1 L1] [P2 L2]. split.
  - by rewrite P2, P1, list_to_set_app_L, union_assoc_L.
  - by rewrite L2, L1, ledger_lines_app, <- app_assoc.
Qed.

Lemma ledger_state_inv (w w' : World) :
  ledger_state w' = ledger_state w →
  processed_videos w' = processed_videos w ∧ ledger_file w' = ledger_file w.
Proof. by intros [= -> _ -> _]. Qed.

Lemma local_state_inv (w w' : World) :
  local_state w' = local_state w →
  processed_videos w' = processed_videos w ∧ ledger_file w' = ledger_file w.
Proof. by intros [= -> _ -> _ _]. Qed.

Section Commits.

Variable cfg : Config.
Variable env : Env.

Lemma download_frame url filename quality codec w :
  ledger_state (download cfg env url filename quality codec w).2 = ledger_state w.
Proof.
  rewrite download_run. cbv zeta.
  destruct (yt_dlp env (length (calls w)) url) as [ext size| |]; [ | done | done].
  by destruct (_ <? size).
Qed.

Lemma send_video_frame caption path channels retries stream_upload w :
  ledger_state (send_video cfg env caption path channels retries stream_upload w).2
  = ledger_state w
  ∧ (downloads (send_video cfg env caption path channels retries stream_upload w).2
     = downloads w
     ∨ downloads (send_video cfg env caption path channels retries stream_upload w).2
       = delete path (downloads w)).
Proof.
  unfold send_video, bind. rewrite _validate_video_run.
  destruct (downloads w !! path) as [size|]; [ | by auto].
  destruct (negb _); [by auto | ]. destruct (_ <? size); [by auto | ].
  apply send_video_channels_frame.
Qed.

Lemma send_text_frame message channels retries w :
  local_state (send_text env message channels retries w).2 = local_state w.
Proof.
  unfold send_text.
  by destruct (send_text_channels_trace env message channels retries [] w) as (new & _ & L & _).
Qed.

Lemma _handle_download_failure_frame video w :
  local_state (_handle_download_failure cfg env video w).2 = local_state w.
Proof.
  unfold _handle_download_failure, try_except, bind, result.
  destruct (dict_item (Video.title video)) as [title|e]; [ | done].
  match goal with
  | |- context [send_text env ?m ?c ?r w] =>
      pose proof (send_text_frame m c r w) as L;
      destruct (send_text env m c r w) as [[msgs|e] w1]
  end; cbn [fst snd ret logger modify] in *; done.
Qed.

(** The pipeline of one item records its identifier or nothing. *)
Lemma _process_single_video_commits video video_id w :
  ∃ added, (added = [] ∨ added = [video_id])
           ∧ committed env added w (_process_single_video cfg env video video_id w).2.
Proof.
  rewrite _process_single_video_run.
  destruct (ledger_state_inv _ _
              (download_frame (Video.url video) (lit "video_" ++ video_id) (lit "720p") None w))
    as [Pd Ld].
  destruct (download cfg env (Video.url video) (lit "video_" ++ video_id) (lit "720p") None w)
    as [[path|e] w1]; simpl in Pd, Ld.
  - destruct (_generate_caption video) as [caption|e].
    2: { exists []. split; [by left | ]. apply committed_nothing; simpl; congruence. }
    destruct (send_video_frame caption path (CHANNEL_IDS cfg) 3 true w1)
      as [[Ps Ls]%ledger_state_inv _].
    destruct (send_video cfg env caption path (CHANNEL_IDS cfg) 3 true w1)
      as [[msgs|e] w2]; simpl in Ps, Ls.
    + rewrite save_processed_video_run. cbv zeta.
      destruct (ledger_fault env (length (calls w2))).
      * exists []. split; [by left | ]. apply committed_nothing; simpl; congruence.
      * destruct (encodable (video_id ++ [LF])).
        -- exists [video_id]. split; [by right | ]. split; simpl.
           ++ rewrite union_empty_r_L. congruence.
           ++ rewrite app_nil_r. congruence.
        -- exists []. split; [by left | ]. split; simpl.
           ++ rewrite union_empty_r_L. congruence.
           ++ rewrite app_nil_r. congruence.
    + exists []. split; [by left | ]. apply committed_nothing; simpl; congruence.
  - destruct (local_state_inv _ _
                (_handle_download_failure_frame video
                   (with_journal (journal w1 ++ [DownloadFailed video_id]) w1))) as [Ph Lh].
    exists []. split; [by left | ].
    apply committed_nothing; simpl in *; congruence.
Qed.

Lemma as_item_commits video video_id w :
  ∃ added, (added = [] ∨ added = [video_id])
           ∧ committed env added w
               (as_item video_id (_process_single_video cfg env video video_id) w).2.
Proof.
  unfold as_item.
  destruct (_process_single_video_commits video video_id (with_item (Some video_id) w))
    as (added & Ha & P & L).
  destruct (_process_single_video cfg env video video_id (with_item (Some video_id) w))
    as [r w1]; simpl in *.
  exists added. split; [done | ]. by split.
Qed.

(** The candidates of a sweep that get recorded: a selection of them, in
    order, none of which was processed and none twice. *)
Lemma process_each_commits videos w :
  ∃ added, added `sublist_of` map video_id_of videos
           ∧ Forall (λ video_id, video_id ∉ processed_videos w) added
           ∧ NoDup added
           ∧ committed env added w (process_each cfg env videos w).2.
Proof.
  revert w. induction videos as [|video rest IH]; intros w.
  - exists []. split_and!; [done | done | constructor | by apply committed_nothing].
  - destruct (decide (video_id_of video ∈ processed_videos w)) as [Hin|Hout].
    + rewrite process_each_skip by done.
      destruct (IH w) as (added & Hsub & Hnew & Hnd & Hc).
      exists added. split_and!; [by apply sublist_cons | done | done | done].
    + rewrite process_each_run by done.
      destruct (as_item_commits video (video_id_of video) w) as (a1 & Ha1 & Hc1).
      destruct (as_item _ _ w) as [[[]|e] w1]; simpl in *.
      * destruct (IH w1) as (a2 & Hsub & Hnew & Hnd & Hc2).
        exists (a1 ++ a2). destruct Hc1 as [P1 L1].
        assert (Hnew' : Forall (λ video_id, video_id ∉ processed_videos w) a2).
        { eapply Forall_impl; [exact Hnew | ]. intros id Hid Hin. apply Hid.
          rewrite P1. apply elem_of_union. by left. }
        split_and!; [ | | | by eapply committed_trans].
        -- destruct Ha1 as [-> | ->]; [by apply sublist_cons | by apply sublist_skip].
        -- destruct Ha1 as [-> | ->]; [done | by constructor].
        -- destruct Ha1 as [-> | ->]; [done | ]. simpl. constructor; [ | done].
           intros Hin. eapply Forall_forall in Hnew; [ | exact Hin].
           apply Hnew. rewrite P1. apply elem_of_union. right.
           apply elem_of_list_to_set, list_elem_of_here.
      * exists a1. split_and!; [ | | | done].
        -- destruct Ha1 as [-> | ->]; [apply sublist_nil_l | ].
           apply sublist_skip, sublist_nil_l.
        -- destruct Ha1 as [-> | ->]; [done | by repeat constructor].
        -- destruct Ha1 as [-> | ->]; [constructor | ]. apply NoDup_singleton.
Qed.

End Commits.

(** ** Further properties of the code *)

(** X5. [download] either returns the path of a file that is in the
    download directory and within the size limit, or raises
    [VideoDownloadError]; no other exception leaves it. *)
Theorem download_outcome (cfg : Config) (env : Env) (url filename quality : str)
    (codec : option str) (w : World) :
  let run := download cfg env url filename quality codec w in
  (∀ path, run.1 = Ret path →
     ∃ size, downloads run.2 !! path = Some size
             ∧ size ≤ MAX_FILE_SIZE_MB cfg * 1024 * 1024)
  ∧ (∀ e, run.1 = Raise e → e = VideoDownloadError).
Proof.
  cbv zeta. split; [ | intros e; apply download_raises].
  rewrite download_run. cbv zeta.
  destruct (yt_dlp env (length (calls w)) url) as [ext size| |]; [ | done | done].
  destruct (N.ltb_spec (MAX_FILE_SIZE_MB cfg * 1024 * 1024) size); [done | ].
  simpl. intros path [= <-]. exists size. split; [apply lookup_insert_eq | done].
Qed.


(** X7. [process_videos] never raises: whatever the search, the download or
    the publication do, the sweep returns. *)
Theorem sweep_never_raises (cfg : Config) (env : Env) (w : World) :
  (process_videos cfg env w).1 = Ret tt.
Proof.
  destruct (is_running w) eqn:Hrun.
  - rewrite process_videos_run by done. cbv zeta.
    destruct (vk_search env (length (calls w))) as [videos|]; [ | done].
    destruct (process_each cfg env videos _) as [[[]|e] w2]; [done | by destruct e].
  - by rewrite process_videos_stopped.
Qed.

(** X8. What a sweep records is a selection of the candidates the search
    returned, in their order: none of them was in the set before, none is
    recorded twice, each is added to the set and appended to the file
    alike, and nothing else happens to the set or the file. Without a
    search result, or once the application is stopped, nothing is
    recorded. *)
Theorem sweep_records_new_candidates (cfg : Config) (env : Env) (w : World) :
  ∃ added,
    committed env added w (process_videos cfg env w).2
    ∧ Forall (λ video_id, video_id ∉ processed_videos w) added
    ∧ NoDup added
    ∧ (∀ videos, vk_search env (length (calls w)) = Found videos →
         added `sublist_of` map video_id_of videos)
    ∧ (vk_search env (length (calls w)) = SearchFails → added = [])
    ∧ (is_running w = false → added = []).
Proof.
  destruct (is_running w) eqn:Hrun.
  - rewrite process_videos_run by done. cbv zeta. set (w1 := with_calls _ _).
    destruct (vk_search env (length (calls w))) as [videos|].
    + destruct (process_each_commits cfg env videos w1) as (added & Hsub & Hnew & Hnd & P & L).
      exists added. split_and!; [ | done | done | by intros ? [= <-] | done | done].
      destruct (process_each cfg env videos w1) as [[[]|e] w2]; [done | ].
      by destruct e.
    + exists []. split_and!;
      [by apply committed_nothing | done | apply NoDup_nil_2
      | intros; apply sublist_nil_l | done | done].
  - rewrite process_videos_stopped by done.
    exists []. split_and!;
      [by apply committed_nothing | done | apply NoDup_nil_2
      | intros; apply sublist_nil_l | done | done].
Qed.

(** X9. A candidate whose file comes in a format that [send_video] does not
    support stops the sweep: the file stays in the download directory, the
    identifier is not recorded, and the candidates after it are not looked
    at. The exception logged is the [ValueError] of [send_video], or, for
    a candidate that gets no caption, the [AttributeError] raised before
    [send_video] is called. *)
Theorem unsupported_format_stops_the_sweep (cfg : Config) (env : Env) (video : Video.t)
    (rest : list Video.t) (w : World) (ext : str) (size : N) :
  let video_id := video_id_of video in
  let path := (lit "video_" ++ video_id) ++ [dot] ++ ext in
  let stop := match _generate_caption video with Ret _ => ValueError | Raise e => e end in
  is_running w = true →
  vk_search env (length (calls w)) = Found (video :: rest) →
  video_id ∉ processed_videos w →
  yt_dlp env (S (length (calls w))) (Video.url video) = Saved ext size →
  size ≤ MAX_FILE_SIZE_MB cfg * 1024 * 1024 →
  slice_from_1 (lower (suffix path)) ∉ SUPPORTED_VIDEO_FORMATS →
  let run := process_videos cfg env w in
  run.1 = Ret tt
  ∧ journal run.2 = journal w ++ [StartingCycle; UnexpectedError stop]
  ∧ map snd (calls run.2)
    = map snd (calls w)
      ++ [VkSearch (RESULTS_COUNT cfg);
          YtDlp (Video.url video) ((lit "video_" ++ video_id) ++ lit ".%(ext)s")
            (_build_format_string (lit "720p") None)]
  ∧ downloads run.2 = <[path := size]> (downloads w)
  ∧ processed_videos run.2 = processed_videos w
  ∧ ledger_file run.2 = ledger_file w.
Proof.
  cbv zeta. intros Hrun Hfound Hnew Hsaved Hsize Hformat.
  assert (∃ w', process_videos cfg env w = (Ret tt, w')
                ∧ journal w'
                  = journal w
                    ++ [StartingCycle;
                        UnexpectedError (match _generate_caption video with
                                         | Ret _ => ValueError
                                         | Raise e => e
                                         end)]
                ∧ calls w'
                  = (calls w ++ [(item w, VkSearch (RESULTS_COUNT cfg))])
                    ++ [(Some (video_id_of video),
                         YtDlp (Video.url video)
                           ((lit "video_" ++ video_id_of video) ++ lit ".%(ext)s")
                           (_build_format_string (lit "720p") None))]
                ∧ downloads w'
                  = <[(lit "video_" ++ video_id_of video) ++ [dot] ++ ext := size]>
                      (downloads w)
                ∧ processed_videos w' = processed_videos w
                ∧ ledger_file w' = ledger_file w) as (w' & -> & J & C & D & P & L).
  { destruct (_generate_caption video) as [caption|e] eqn:Hcaption.
    - eexists. split.
      + rewrite process_videos_run by done. cbv zeta. rewrite Hfound.
        rewrite process_each_run by done. unfold as_item.
        rewrite _process_single_video_run, Hcaption, download_run. cbv zeta.
        cbn [calls with_calls with_item with_journal item].
        rewrite length_snoc, Hsaved.
        destruct (N.ltb_spec (MAX_FILE_SIZE_MB cfg * 1024 * 1024) size); [lia | ].
        unfold send_video, bind. rewrite _validate_video_run.
        cbn [downloads with_downloads with_calls with_item with_journal].
        rewrite lookup_insert_eq, bool_decide_eq_false_2 by done.
        cbn [negb]. reflexivity.
      + cbn [journal calls downloads processed_videos ledger_file logger modify snd
             with_journal with_downloads with_calls with_item].
        rewrite <- app_assoc. done.
    - pose proof (_generate_caption_raises video e Hcaption) as [-> _].
      eexists. split.
      + rewrite process_videos_run by done. cbv zeta. rewrite Hfound.
        rewrite process_each_run by done. unfold as_item.
        rewrite _process_single_video_run, Hcaption, download_run. cbv zeta.
        cbn [calls with_calls with_item with_journal item].
        rewrite length_snoc, Hsaved.
        destruct (N.ltb_spec (MAX_FILE_SIZE_MB cfg * 1024 * 1024) size); [lia | ].
        reflexivity.
      + cbn [journal calls downloads processed_videos ledger_file logger modify snd
             with_journal with_downloads with_calls with_item].
        rewrite <- app_assoc. done. }
  cbn [fst snd]. rewrite J, C, D, P, L, !map_app, <- !app_assoc. done.
Qed.

(** X10. The handler of a download failure never raises, whatever the
    Telegram API does, and touches neither the ledger nor the download
    directory. For a video with a title its calls are those of [send_text]
    on the notice (the title as it is, then the URL; the word None for a
    title that is [None]); for a video without the key it logs the
    [KeyError] and sends nothing. *)
Theorem download_failure_notice (cfg : Config) (env : Env) (video : Video.t) (w : World) :
  let run := _handle_download_failure cfg env video w in
  run.1 = Ret tt
  ∧ local_state run.2 = local_state w
  ∧ match Video.title video with
    | Value title =>
        calls run.2
        = calls (send_text env (lit "*Не удалось загрузить видео*" ++ [LF] ++ title ++ [LF]
                                ++ Video.url video) (CHANNEL_IDS cfg) 3 w).2
    | PyNone =>
        calls run.2
        = calls (send_text env (lit "*Не удалось загрузить видео*" ++ [LF] ++ lit "None"
                                ++ [LF] ++ Video.url video) (CHANNEL_IDS cfg) 3 w).2
    | Absent =>
        calls run.2 = calls w ∧ journal run.2 = journal w ++ [NotifyFailed KeyError]
    end.
Proof.
  cbv zeta. split_and!.
  - apply _handle_download_failure_returns.
  - apply _handle_download_failure_frame.
  - unfold _handle_download_failure, try_except, bind, result.
    destruct (Video.title video) as [ | |title]; cbn [dict_item format_text]; [done | | ];
      match goal with
      | |- context [send_text env ?m ?c ?r w] =>
          by destruct (send_text env m c r w) as [[msgs|e] w1]
      end.
Qed.

(** X11. [send_text] sleeps exactly the waits it is asked for: the
    durations slept are, in order, the timeouts of the [RetryAfter] answers
    to its requests, whatever else the Telegram API answers. *)
Theorem send_text_sleeps_what_is_asked (env : Env) (message : str) (channels : list Chat)
    (retries : nat) (w : World) :
  ∃ new,
    calls (send_text env message channels retries w).2 = calls w ++ map (pair (item w)) new
    ∧ sleeps new = rate_limits env (length (calls w)) new.
Proof.
  unfold send_text.
  destruct (send_text_channels_trace env message channels retries [] w)
    as (new & C & _ & Hs & _).
  by exists new.
Qed.

Lemma per_destination_length (counts : list nat) (channels : list Chat) (retries : nat) :
  Forall (λ k, (k ≤ retries)%nat) counts →
  (length (per_destination counts channels) ≤ retries * length channels)%nat.
Proof.
  intros H. revert channels. induction H as [|k counts Hk _ IH]; intros channels.
  - simpl. lia.
  - destruct channels as [|channel rest]; [simpl; lia | ].
    rewrite per_destination_cons, length_app, length_replicate. specialize (IH rest).
    simpl. lia.
Qed.

Lemma per_destination_subseteq (counts : list nat) (channels : list Chat) :
  per_destination counts channels ⊆ channels.
Proof.
  revert channels. induction counts as [|k counts IH]; intros channels chat.
  - by intros ?%elem_of_nil.
  - destruct channels as [|channel rest]; [by intros ?%elem_of_nil | ].
    rewrite per_destination_cons. intros [Hin | Hin]%elem_of_app.
    + apply elem_of_replicate in Hin as [-> _]. apply list_elem_of_here.
    + apply list_elem_of_further. by apply IH.
Qed.

(** X12. [send_text] makes at most [retries] requests per destination: its
    requests are those to the first destination, at most [retries] of
    them, then those to the second, and so on down the list, one count per
    entry of the list. So there are at most [retries] times the number of
    destinations in all, and they go only to the destinations it was
    given. *)
Theorem send_text_requests_bounded (env : Env) (message : str) (channels : list Chat)
    (retries : nat) (w : World) :
  ∃ new counts,
    calls (send_text env message channels retries w).2 = calls w ++ map (pair (item w)) new
    ∧ length counts = length channels
    ∧ Forall (λ k, (k ≤ retries)%nat) counts
    ∧ asked new = per_destination counts channels
    ∧ (length (asked new) ≤ retries * length channels)%nat
    ∧ asked new ⊆ channels.
Proof.
  unfold send_text.
  destruct (send_text_channels_requests env message channels retries [] w)
    as (new & counts & C & _ & _ & L & B & A & _).
  exists new, counts. rewrite A.
  split_and!; [done | done | done | done | | ].
  - by apply per_destination_length.
  - apply per_destination_subseteq.
Qed.

(** X13. [send_text] has no effect on the local state: the set of processed
    videos, the ledger file and the download directory are as they were,
    whether it returns or raises. *)
Theorem send_text_no_local_effect (env : Env) (message : str) (channels : list Chat)
    (retries : nat) (w : World) :
  let run := send_text env message channels retries w in
  processed_videos run.2 = processed_videos w
  ∧ ledger_file run.2 = ledger_file w
  ∧ downloads run.2 = downloads w
  ∧ is_running run.2 = is_running w.
Proof.
  cbv zeta. pose proof (send_text_frame env message channels retries w) as L.
  by injection L as -> -> -> -> _.
Qed.

(** X14. An exception of a request that is not an error of the Telegram API
    leaves [send_text]: the call raises it after that one request, and the
    destinations that follow are not asked. *)
Theorem send_text_raises_other_exceptions (env : Env) (message : str) (channel : Chat)
    (rest : list Chat) (retries : nat) (w : World) (e : Exn) :
  telegram env (length (calls w)) channel = Fails e →
  is_TelegramAPIError e = false →
  send_text env message (channel :: rest) (S retries) w
  = (Raise e,
     with_calls (calls w ++ [(item w, SendMessage channel
                                        (_truncate_text message MAX_CAPTION_LENGTH))]) w).
Proof.
  intros Hreply Hother. unfold send_text.
  rewrite send_text_channels_cons, send_text_attempts_step. cbv zeta. rewrite Hreply.
  by destruct e.
Qed.

(** X15. A destination that answers [ChatNotFound] or [NetworkError] is
    given up at once: when every request is answered so, [send_text] asks
    each destination exactly once, in order, and returns no receipt. *)
Theorem send_text_gives_up_on_fatal_errors (env : Env) (message : str)
    (channels : list Chat) (retries : nat) (w : World) :
  (∀ n chat, telegram env n chat = Fails ChatNotFound
             ∨ telegram env n chat = Fails NetworkError) →
  (0 < retries)%nat →
  let run := send_text env message channels retries w in
  run.1 = Ret []
  ∧ calls run.2
    = calls w
      ++ map (λ ch, (item w, SendMessage ch (_truncate_text message MAX_CAPTION_LENGTH)))
           channels.
Proof.
  intros Hfatal Hretries. cbv zeta. unfold send_text.
  destruct retries as [|remaining]; [lia | ].
  by destruct (send_text_channels_fatal env message channels remaining [] w Hfatal)
    as (w' & -> & C & _).
Qed.

(** X16. A destination that keeps answering [RetryAfter] is asked [retries]
    times, each request followed by a sleep of the duration asked for, the
    last one included; [send_text] then goes on to the next destination and
    returns no receipt. *)
Theorem send_text_rate_limited_throughout (env : Env) (seconds : N) (message : str)
    (channels : list Chat) (retries : nat) (w : World) :
  (∀ n chat, telegram env n chat = Fails (RetryAfter seconds)) →
  let run := send_text env message channels retries w in
  run.1 = Ret []
  ∧ calls run.2
    = calls w
      ++ mjoin (map (λ ch,
            mjoin (replicate retries
                     [(item w, SendMessage ch (_truncate_text message MAX_CAPTION_LENGTH));
                      (item w, Sleep seconds)])) channels).
Proof.
  intros Hlimit. cbv zeta. unfold send_text.
  by destruct (send_text_channels_rate_limited env seconds message channels retries [] w
                 Hlimit) as (w' & -> & C & _).
Qed.

(** X17. Any other error of the Telegram API is retried at once: when every
    request is answered with such an error, [send_text] asks each
    destination [retries] times in a row, without sleeping, and returns no
    receipt. *)
Theorem send_text_retries_api_errors_at_once (env : Env) (message : str)
    (channels : list Chat) (retries : nat) (w : World) :
  (∀ n chat, telegram env n chat = Fails TelegramAPIError) →
  let run := send_text env message channels retries w in
  run.1 = Ret []
  ∧ calls run.2
    = calls w
      ++ mjoin (map (λ ch,
            replicate retries
              (item w, SendMessage ch (_truncate_text message MAX_CAPTION_LENGTH)))
           channels).
Proof.
  intros Herr. cbv zeta. unfold send_text.
  by destruct (send_text_channels_api_error env message channels retries [] w Herr)
    as (w' & -> & C & _).
Qed.

(** X18. [send_video] tests the file before it asks anyone: a file that is
    missing raises [FileNotFoundError], one with a format that is not
    supported [ValueError] (whatever its size), one beyond the size limit
    [ContentTooLargeError], each with no request made and the state as it
    was. *)
Theorem send_video_rejects_before_sending (cfg : Config) (env : Env)
    (caption video_path : str) (channels : list Chat) (retries : nat)
    (stream_upload : bool) (w : World) :
  let run := send_video cfg env caption video_path channels retries stream_upload w in
  match downloads w !! video_path with
  | None => run = (Raise FileNotFoundError, w)
  | Some size =>
      if bool_decide (slice_from_1 (lower (suffix video_path)) ∈ SUPPORTED_VIDEO_FORMATS)
      then if MAX_FILE_SIZE_MB cfg * (1024 * 1024) <? size
           then run = (Raise ContentTooLargeError, w)
           else ∃ messages, run.1 = Ret messages
      else run = (Raise ValueError, w)
  end.
Proof.
  cbv zeta. unfold send_video, bind. rewrite _validate_video_run.
  destruct (downloads w !! video_path) as [size|]; [ | done].
  destruct (bool_decide _); simpl; [ | done].
  destruct (_ <? size); [done | ].
  destruct (send_video_channels_returns cfg env caption video_path channels stream_upload
              [] w) as (new & R & _).
  eexists. exact R.
Qed.

(** X19. With deletion disabled, [send_video] asks every destination exactly
    once, in order, whatever the earlier ones answered, returns the
    receipts of those that took the video, and leaves the file in
    place. *)
Theorem send_video_asks_everyone_when_keeping (cfg : Config) (env : Env)
    (caption video_path : str) (channels : list Chat) (retries : nat)
    (stream_upload : bool) (w : World) :
  DELETE_LOCAL_COPY cfg = false →
  (_validate_video cfg video_path w).1 = Ret tt →
  let run := send_video cfg env caption video_path channels retries stream_upload w in
  downloads run.2 = downloads w
  ∧ ∃ size,
      downloads w !! video_path = Some size
      ∧ calls run.2
        = calls w
          ++ map (λ ch, (item w, SendVideo ch (upload_of stream_upload video_path size)
                                   (_truncate_text caption MAX_CAPTION_LENGTH))) channels
      ∧ run.1
        = Ret (delivered env (length (calls w))
                 (map (λ ch, SendVideo ch (upload_of stream_upload video_path size)
                               (_truncate_text caption MAX_CAPTION_LENGTH)) channels)).
Proof.
  intros Hkeep Hvalid. cbv zeta.
  apply _validate_video_ok in Hvalid as [[size Hfile] Hrun].
  unfold send_video, bind. rewrite Hrun.
  destruct (send_video_channels_keeping cfg env caption video_path channels stream_upload
              [] w size Hkeep Hfile) as (w' & -> & C & D).
  split; [done | by exists size].
Qed.

(** X20. [send_video] never touches the ledger, and of the download
    directory it removes the file it was given or nothing: every other
    file is as it was. *)
Theorem send_video_removes_its_file_only (cfg : Config) (env : Env)
    (caption video_path : str) (channels : list Chat) (retries : nat)
    (stream_upload : bool) (w : World) :
  let run := send_video cfg env caption video_path channels retries stream_upload w in
  processed_videos run.2 = processed_videos w
  ∧ ledger_file run.2 = ledger_file w
  ∧ (∀ other, other ≠ video_path → downloads run.2 !! other = downloads w !! other)
  ∧ (DELETE_LOCAL_COPY cfg = false → downloads run.2 = downloads w).
Proof.
  cbv zeta.
  destruct (send_video_frame cfg env caption video_path channels retries stream_upload w)
    as [[P L]%ledger_state_inv D].
  split_and!; [done | done | | ].
  - intros other Hother. destruct D as [-> | ->]; [done | by apply lookup_delete_ne].
  - intros Hkeep. unfold send_video, bind. rewrite _validate_video_run.
    destruct (downloads w !! video_path) as [size|] eqn:Hfile; [ | done].
    destruct (negb _); [done | ]. destruct (_ <? size); [done | ].
    destruct (send_video_channels_keeping cfg env caption video_path channels
                stream_upload [] w size Hkeep Hfile) as (w' & -> & _ & D').
    exact D'.
Qed.

(** ** Identifiers *)

Lemma digits_inj (d d' : Decimal.uint) : digits d = digits d' → d = d'.
Proof.
  revert d'. induction d; intros d'; destruct d'; simpl; intros H;
    try discriminate H; try reflexivity;
    injection H as H; f_equal; by apply IHd.
Qed.

Lemma digits_chars (d : Decimal.uint) : Forall (λ c, 48 ≤ c ∧ c ≤ 57) (digits d).
Proof. induction d; simpl; constructor; (lia || done). Qed.

Lemma str_of_int_chars (z : Z) : Forall is_int_char (str_of_int z).
Proof.
  assert (H : ∀ d, Forall is_int_char (digits d)).
  { intros d. eapply Forall_impl; [apply digits_chars | ]. intros c Hc. by right. }
  destruct z; simpl; [apply H | apply H | constructor; [by left | apply H]].
Qed.

Lemma str_of_N_inj (n n' : N) : str_of_N n = str_of_N n' → n = n'.
Proof. unfold str_of_N. intros H%digits_inj. by apply DecimalN.Unsigned.to_uint_inj. Qed.

Lemma str_of_int_inj (z z' : Z) : str_of_int z = str_of_int z' → z = z'.
Proof.
  assert (Hminus : ∀ d s, digits d ≠ 45 :: s).
  { intros d s H. pose proof (digits_chars d) as F. rewrite H in F.
    apply Forall_cons in F as [F _]. lia. }
  destruct z as [|p|p], z' as [|p'|p']; simpl; intros H; try reflexivity;
    first [ by apply Hminus in H
          | by (symmetry in H; apply Hminus in H)
          | (try injection H as H); apply str_of_N_inj in H; congruence ].
Qed.

Lemma split_at_separator (sep : N) (a a' b b' : str) :
  sep ∉ a → sep ∉ a' → a ++ sep :: b = a' ++ sep :: b' → a = a' ∧ b = b'.
Proof.
  revert a'. induction a as [|c a IH]; intros a' Ha Ha' H; destruct a' as [|c' a'];
    simpl in H.
  - by injection H as ->.
  - injection H as -> _. exfalso. apply Ha'. apply list_elem_of_here.
  - injection H as -> _. exfalso. apply Ha. apply list_elem_of_here.
  - injection H as -> H. apply not_elem_of_cons in Ha as [_ Ha].
    apply not_elem_of_cons in Ha' as [_ Ha'].
    destruct (IH a' Ha Ha' H) as [-> ->]. done.
Qed.

Lemma str_of_int_no_underscore (z : Z) : 95 ∉ str_of_int z.
Proof.
  intros Hin. pose proof (str_of_int_chars z) as F.
  eapply Forall_forall in F; [ | exact Hin]. destruct F as [F | F]; [done | lia].
Qed.

(** X3. The identifier tells the videos apart: two videos have the same
    identifier exactly when they have the same owner and the same id. *)
Theorem video_id_of_injective (video video' : Video.t) :
  video_id_of video = video_id_of video'
  ↔ Video.owner_id video = Video.owner_id video' ∧ Video.id video = Video.id video'.
Proof.
  unfold video_id_of. split.
  - change (lit "_") with [95]. simpl app. intros H.
    apply split_at_separator in H as [Ho Hi]; [ | apply str_of_int_no_underscore..].
    split; by apply str_of_int_inj.
  - by intros [-> ->].
Qed.

(** X4. The identifiers of videos are fit for the ledger file: they hold no
    line boundary and can be encoded, which is what the file needs to give
    them back one per line. *)
Theorem video_ids_fit_the_ledger (videos : list Video.t) :
  Forall (λ video_id, no_linebreak video_id ∧ encodable video_id = true)
         (map video_id_of videos).
Proof.
  apply Forall_forall. intros video_id (video & -> & _)%list_elem_of_fmap.
  assert (F : Forall (λ c, is_int_char c ∨ c = 95) (video_id_of video)).
  { unfold video_id_of. change (lit "_") with [95]. rewrite !Forall_app. split_and!.
    - eapply Forall_impl; [apply str_of_int_chars | ]. by left.
    - constructor; [by right | constructor].
    - eapply Forall_impl; [apply str_of_int_chars | ]. by left. }
  split.
  - eapply Forall_impl; [exact F | ]. intros c [[-> | [? ?]] | ->]; try done.
    unfold is_linebreak.
    repeat match goal with
           | |- context [c =? ?k] => destruct (N.eqb_spec c k); [lia | ]
           end.
    done.
  - unfold encodable. apply forallb_forall. intros c Hc%list_elem_of_In.
    eapply Forall_forall in F; [ | exact Hc].
    destruct F as [[-> | [? ?]] | ->]; try done.
    apply andb_true_iff. split.
    + apply negb_true_iff, andb_false_iff. left. apply N.leb_gt. lia.
    + apply N.leb_le. lia.
Qed.

(** ** The limit of a text *)

(** X21. [_truncate_text] keeps a text within [max_length] exactly when
    [max_length] is at least 3, the length of the three dots: the result is
    then the text itself or its first [max_length - 3] characters and the
    dots. For a smaller limit every text longer than the limit comes back
    longer than the limit. *)
Theorem truncate_text_limit (text : str) (max_length : Z) :
  ((3 ≤ max_length)%Z →
     (Z.of_nat (length (_truncate_text text max_length)) ≤ max_length)%Z
     ∧ ((Z.of_nat (length text) ≤ max_length)%Z → _truncate_text text max_length = text)
     ∧ ((max_length < Z.of_nat (length text))%Z →
        _truncate_text text max_length
        = take (Z.to_nat (max_length - 3)) text ++ lit "..."))
  ∧ ((max_length < 3)%Z → (max_length < Z.of_nat (length text))%Z →
       (max_length < Z.of_nat (length (_truncate_text text max_length)))%Z).
Proof.
  unfold _truncate_text, slice_to. split.
  - intros Hm. destruct (Z.ltb_spec max_length (Z.of_nat (length text))) as [Hlong|Hshort].
    + destruct (Z.ltb_spec (max_length - 3) 0) as [ | _]; [lia | ].
      split_and!; [ | lia | done].
      rewrite length_app, length_take. change (length (lit "...")) with 3%nat. lia.
    + split_and!; [lia | done | lia].
  - intros Hm Hlong. destruct (Z.ltb_spec max_length (Z.of_nat (length text))); [ | lia].
    rewrite length_app. change (length (lit "...")) with 3%nat. lia.
Qed.

(** ** The ledger at start *)

Lemma ledger_text_app (sep : str) (a1 a2 : list str) :
  ledger_text sep (a1 ++ a2) = ledger_text sep a1 ++ ledger_text sep a2.
Proof.
  unfold ledger_text. induction a1 as [|video_id a1 IH]; [done | ].
  simpl. by rewrite IH, <- !app_assoc.
Qed.

(** X1. [load_processed_videos] never raises and never writes the file.
    Without a file it does nothing; when the file cannot be read it logs
    the error and leaves the set as it was; otherwise the set becomes the
    lines of the file, whatever it held before. *)
Theorem load_processed_videos_outcome (env : Env) (w : World) :
  let run := load_processed_videos env w in
  run.1 = Ret tt
  ∧ ledger_file run.2 = ledger_file w
  ∧ match ledger_file w with
    | None => run.2 = w
    | Some content =>
        if ledger_fault env (length (calls w)) then
          processed_videos run.2 = processed_videos w
          ∧ journal run.2 = journal w ++ [ErrorLoading OSError]
        else
          processed_videos run.2 = list_to_set (splitlines (universal_newlines content))
          ∧ journal run.2
            = journal w
              ++ [LoadedProcessed
                    (size (list_to_set (C := gset str)
                             (splitlines (universal_newlines content))))]
    end.
Proof.
  cbv zeta.
  assert (E : load_processed_videos env w
              = match ledger_file w with
                | None => (Ret tt, w)
                | Some content =>
                    let w0 := with_calls (calls w ++ [(item w, OpenLedger false)]) w in
                    if ledger_fault env (length (calls w))
                    then logger (ErrorLoading OSError) w0
                    else
                      let lines := list_to_set (splitlines (universal_newlines content)) in
                      logger (LoadedProcessed (size lines)) (with_processed lines w0)
                end).
  { unfold load_processed_videos, try_except, read_ledger, bind, call, get, modify. simpl.
    destruct (ledger_file w) as [content|] eqn:Hfile; simpl; [ | done].
    destruct (ledger_fault env (length (calls w))); simpl; [done | ].
    by rewrite Hfile. }
  rewrite E. destruct (ledger_file w) as [content|] eqn:Hfile; [ | done].
  cbv zeta. by destruct (ledger_fault env (length (calls w))).
Qed.

(** X2. Recording into a ledger file that exists and starting again: the
    set read back holds the lines the file had and the new identifier. The
    identifier is appended with no separator before it, so when the last
    line of the file was not terminated the new identifier is read back
    glued to that line ([partial] below; empty for a well-formed file). *)
Theorem reload_after_record (env : Env) (old_ids : list str) (partial video_id : str)
    (w : World) :
  (∀ n, ledger_fault env n = false) →
  linesep env = [LF] ∨ linesep env = [CR; LF] →
  Forall no_linebreak old_ids → no_linebreak partial → no_linebreak video_id →
  encodable video_id = true →
  default [] (ledger_file w) = ledger_text (linesep env) old_ids ++ partial →
  processed_videos (startup_state env (save_processed_video env video_id w).2).2
  = list_to_set (old_ids ++ [partial ++ video_id]).
Proof.
  intros Hio Hsep Hold Hpartial Hid Henc Hfile.
  rewrite save_processed_video_run. cbv zeta.
  rewrite Hio, encodable_line, Hfile, write_newlines_line by done. simpl.
  erewrite startup_state_reads; [ | apply Hio | reflexivity].
  replace ((ledger_text (linesep env) old_ids ++ partial) ++ video_id ++ linesep env)
    with (ledger_text (linesep env) (old_ids ++ [partial ++ video_id])).
  - assert (Hall : Forall no_linebreak (old_ids ++ [partial ++ video_id])).
    { apply Forall_app. split; [done | ]. constructor; [ | done]. by apply Forall_app. }
    by rewrite universal_newlines_ledger_text, splitlines_ledger_text.
  - rewrite ledger_text_app. simpl. by rewrite app_nil_r, <- !app_assoc.
Qed.

(** [no_linebreak], as a test that computes. *)
Lemma no_linebreak_test (s : str) :
  forallb (λ c, negb (is_linebreak c)) s = true → no_linebreak s.
Proof.
  intros H. apply Forall_forall. intros c Hc. apply list_elem_of_In in Hc.
  eapply forallb_forall in H; [ | exact Hc]. by apply negb_true_iff.
Qed.

(** ** Reading a file in chunks *)

Lemma read_chunks_spec (chunk_size : nat) (content : list Byte.byte) (passes : nat) :
  (0 < chunk_size)%nat → (length content < passes)%nat →
  mjoin (read_chunks passes chunk_size content) = content
  ∧ Forall (λ chunk, (0 < length chunk ≤ chunk_size)%nat)
           (read_chunks passes chunk_size content)
  ∧ (length (read_chunks passes chunk_size content) * chunk_size
     < length content + chunk_size)%nat
  ∧ (length content ≤ length (read_chunks passes chunk_size content) * chunk_size)%nat.
Proof.
  intros Hpos. revert content. induction passes as [|passes IH]; intros content Hlen; [lia | ].
  cbn [read_chunks].
  pose proof (length_take content chunk_size) as Hchunk.
  pose proof (take_drop chunk_size content) as Hcut.
  pose proof (length_drop content chunk_size) as Hrest.
  destruct (take chunk_size content) as [|b chunk].
  - simpl in Hchunk. assert (length content = 0%nat) as Hnil by lia.
    apply length_zero_iff_nil in Hnil as ->.
    simpl. split_and!; [done | constructor | lia | lia].
  - cbn [length] in Hchunk.
    destruct (IH (drop chunk_size content)) as (J & F & U & L); [lia | ].
    split_and!.
    + change (mjoin ((b :: chunk) :: ?x)) with ((b :: chunk) ++ mjoin x).
      by rewrite J.
    + constructor; [cbn [length]; lia | done].
    + cbn [length]. rewrite Nat.mul_succ_l.
      destruct (le_lt_dec chunk_size (length content)); [lia | ].
      destruct (length (read_chunks passes chunk_size (drop chunk_size content)));
        [lia | ].
      rewrite Nat.mul_succ_l in U. lia.
    + cbn [length]. rewrite Nat.mul_succ_l. lia.
Qed.

(** X22. [_file_chunker] cuts a file into chunks that, put together again,
    are the file: every chunk holds at least one byte and at most
    [CHUNK_SIZE], and there are as few chunks as that allows (none for an
    empty file). *)
Theorem file_chunker_round_trip (content : list Byte.byte) :
  let chunks := _file_chunker content in
  mjoin chunks = content
  ∧ Forall (λ chunk, (0 < length chunk ≤ N.to_nat CHUNK_SIZE)%nat) chunks
  ∧ (length chunks * N.to_nat CHUNK_SIZE < length content + N.to_nat CHUNK_SIZE)%nat
  ∧ (length content ≤ length chunks * N.to_nat CHUNK_SIZE)%nat.
Proof.
  cbv zeta. unfold _file_chunker. apply read_chunks_spec; [ | lia].
  unfold CHUNK_SIZE. lia.
Qed.

(** ** The parameters of the search *)

(** X23. The count that goes to the search is always between 1 and 200: it
    is the count asked for when that lies in the range, and the nearer end
    of the range otherwise. No list of filters, or an empty one, sends no
    filter. *)
Theorem request_count_is_clamped (VK_TOKEN VK_API_VERSION query : str) (count sort : Z)
    (filters : option (list str)) :
  let params := _build_request_params VK_TOKEN VK_API_VERSION query count sort filters in
  (1 ≤ param_count params ≤ 200)%Z
  ∧ ((1 ≤ count ≤ 200)%Z → param_count params = count)
  ∧ ((count < 1)%Z → param_count params = 1%Z)
  ∧ ((200 < count)%Z → param_count params = 200%Z)
  ∧ (param_filters params = None ↔ filters = None ∨ filters = Some []).
Proof.
  cbv zeta. unfold _build_request_params, MAX_RESULTS. simpl.
  split_and!; try lia.
  destruct filters as [[|part rest]|]; split; intros H;
    first [ done | by right | by left | by destruct H ].
Qed.

(** ** The further properties at concrete inputs *)

(** X2 at a ledger file that holds 100_1 and an unfinished line. *)
Lemma reload_after_record_witness :
  processed_videos
    (startup_state (outside [] 0 always_delivers false)
       (save_processed_video (outside [] 0 always_delivers false) (lit "100_3")
          (with_ledger_file (Some (ledger_text [LF] [lit "100_1"] ++ lit "100_")) fresh)).2).2
  = list_to_set ([lit "100_1"] ++ [lit "100_" ++ lit "100_3"]).
Proof.
  apply (reload_after_record (outside [] 0 always_delivers false) [lit "100_1"]
           (lit "100_") (lit "100_3")
           (with_ledger_file (Some (ledger_text [LF] [lit "100_1"] ++ lit "100_")) fresh)).
  - intros n. reflexivity.
  - left. reflexivity.
  - constructor; [ | constructor]. apply no_linebreak_test. vm_compute. reflexivity.
  - apply no_linebreak_test. vm_compute. reflexivity.
  - apply no_linebreak_test. vm_compute. reflexivity.
  - vm_compute. reflexivity.
  - reflexivity.
Defined.

(** X9 at a sweep whose first candidate is saved as a webm. *)
Lemma unsupported_format_stops_the_sweep_witness :
  (process_videos config_py
     (outside_saving (lit "webm") [video_100_3; video_100_1] (8 * MB)) fresh).1 = Ret tt
  ∧ journal (process_videos config_py
               (outside_saving (lit "webm") [video_100_3; video_100_1] (8 * MB)) fresh).2
    = journal fresh ++ [StartingCycle; UnexpectedError ValueError]
  ∧ map snd (calls (process_videos config_py
                      (outside_saving (lit "webm") [video_100_3; video_100_1] (8 * MB))
                      fresh).2)
    = map snd (calls fresh)
      ++ [VkSearch (RESULTS_COUNT config_py);
          YtDlp (Video.url video_100_3)
            ((lit "video_" ++ video_id_of video_100_3) ++ lit ".%(ext)s")
            (_build_format_string (lit "720p") None)]
  ∧ downloads (process_videos config_py
                 (outside_saving (lit "webm") [video_100_3; video_100_1] (8 * MB)) fresh).2
    = <[(lit "video_" ++ video_id_of video_100_3) ++ [dot] ++ lit "webm" := 8 * MB]>
        (downloads fresh)
  ∧ processed_videos (process_videos config_py
                        (outside_saving (lit "webm") [video_100_3; video_100_1] (8 * MB))
                        fresh).2
    = processed_videos fresh
  ∧ ledger_file (process_videos config_py
                   (outside_saving (lit "webm") [video_100_3; video_100_1] (8 * MB))
                   fresh).2
    = ledger_file fresh.
Proof.
  apply (unsupported_format_stops_the_sweep config_py
           (outside_saving (lit "webm") [video_100_3; video_100_1] (8 * MB))
           video_100_3 [video_100_1] fresh (lit "webm") (8 * MB)).
  - reflexivity.
  - reflexivity.
  - apply not_elem_of_empty.
  - reflexivity.
  - vm_compute. discriminate.
  - eapply (bool_decide_eq_false_1 (_ ∈ _)). vm_compute. reflexivity.
Defined.

(** X14 at a request that breaks outside the API. *)
Lemma send_text_raises_other_exceptions_witness :
  send_text (outside [] 0 breaks_down false) (lit "Demo") (channel1 :: [channel2]) 3 fresh
  = (Raise OtherException,
     with_calls (calls fresh
                 ++ [(item fresh, SendMessage channel1
                                    (_truncate_text (lit "Demo") MAX_CAPTION_LENGTH))])
       fresh).
Proof.
  apply (send_text_raises_other_exceptions (outside [] 0 breaks_down false) (lit "Demo")
           channel1 [channel2] 2 fresh OtherException).
  - reflexivity.
  - reflexivity.
Defined.

(** X15 at two destinations that do not exist. *)
Lemma send_text_gives_up_on_fatal_errors_witness :
  (send_text (outside [] 0 never_reachable false) (lit "Demo") [channel1; channel2] 3
     fresh).1 = Ret []
  ∧ calls (send_text (outside [] 0 never_reachable false) (lit "Demo") [channel1; channel2]
             3 fresh).2
    = calls fresh
      ++ map (λ ch, (item fresh,
                     SendMessage ch (_truncate_text (lit "Demo") MAX_CAPTION_LENGTH)))
           [channel1; channel2].
Proof.
  apply (send_text_gives_up_on_fatal_errors (outside [] 0 never_reachable false)
           (lit "Demo") [channel1; channel2] 3 fresh).
  - intros n chat. left. reflexivity.
  - lia.
Defined.

(** X16 at two destinations that ask for two seconds at every request. *)
Lemma send_text_rate_limited_throughout_witness :
  (send_text (outside [] 0 (always_rate_limited 2) false) (lit "Demo") [channel1; channel2]
     3 fresh).1 = Ret []
  ∧ calls (send_text (outside [] 0 (always_rate_limited 2) false) (lit "Demo")
             [channel1; channel2] 3 fresh).2
    = calls fresh
      ++ mjoin (map (λ ch,
            mjoin (replicate 3
                     [(item fresh,
                       SendMessage ch (_truncate_text (lit "Demo") MAX_CAPTION_LENGTH));
                      (item fresh, Sleep 2)])) [channel1; channel2]).
Proof.
  apply (send_text_rate_limited_throughout (outside [] 0 (always_rate_limited 2) false) 2
           (lit "Demo") [channel1; channel2] 3 fresh).
  intros n chat. reflexivity.
Defined.

(** X17 at two destinations that answer every request with an error. *)
Lemma send_text_retries_api_errors_at_once_witness :
  (send_text (outside [] 0 api_unavailable false) (lit "Demo") [channel1; channel2] 3
     fresh).1 = Ret []
  ∧ calls (send_text (outside [] 0 api_unavailable false) (lit "Demo") [channel1; channel2]
             3 fresh).2
    = calls fresh
      ++ mjoin (map (λ ch,
            replicate 3
              (item fresh, SendMessage ch (_truncate_text (lit "Demo") MAX_CAPTION_LENGTH)))
           [channel1; channel2]).
Proof.
  apply (send_text_retries_api_errors_at_once (outside [] 0 api_unavailable false)
           (lit "Demo") [channel1; channel2] 3 fresh).
  intros n chat. reflexivity.
Defined.

(** X19 at two destinations and a file of 8 MB that is kept. *)
Lemma send_video_asks_everyone_when_keeping_witness :
  downloads (send_video config_keeping (outside [] 0 always_delivers false) (lit "Demo")
               (lit "video_100_3.mp4") [channel1; channel2] 3 true
               (with_files [(lit "video_100_3.mp4", 8 * MB)])).2
  = downloads (with_files [(lit "video_100_3.mp4", 8 * MB)])
  ∧ ∃ size,
      downloads (with_files [(lit "video_100_3.mp4", 8 * MB)]) !! lit "video_100_3.mp4"
      = Some size
      ∧ calls (send_video config_keeping (outside [] 0 always_delivers false) (lit "Demo")
                 (lit "video_100_3.mp4") [channel1; channel2] 3 true
                 (with_files [(lit "video_100_3.mp4", 8 * MB)])).2
        = calls (with_files [(lit "video_100_3.mp4", 8 * MB)])
          ++ map (λ ch, (item (with_files [(lit "video_100_3.mp4", 8 * MB)]),
                         SendVideo ch (upload_of true (lit "video_100_3.mp4") size)
                           (_truncate_text (lit "Demo") MAX_CAPTION_LENGTH)))
               [channel1; channel2]
      ∧ (send_video config_keeping (outside [] 0 always_delivers false) (lit "Demo")
           (lit "video_100_3.mp4") [channel1; channel2] 3 true
           (with_files [(lit "video_100_3.mp4", 8 * MB)])).1
        = Ret (delivered (outside [] 0 always_delivers false)
                 (length (calls (with_files [(lit "video_100_3.mp4", 8 * MB)])))
                 (map (λ ch, SendVideo ch (upload_of true (lit "video_100_3.mp4") size)
                               (_truncate_text (lit "Demo") MAX_CAPTION_LENGTH))
                    [channel1; channel2])).
Proof.
  apply (send_video_asks_everyone_when_keeping config_keeping
           (outside [] 0 always_delivers false) (lit "Demo") (lit "video_100_3.mp4")
           [channel1; channel2] 3 true (with_files [(lit "video_100_3.mp4", 8 * MB)])).
  - reflexivity.
  - vm_compute. reflexivity.
Defined.
